(** * FB-comment-AI: the comment parser and the request handler of [main.py]

    A shallow embedding of [parse_generated_comments] and of the
    [/generate_comment] endpoint, with the properties of the specification
    stated over it.

    Python strings are sequences of Unicode code points; a code point is a
    natural number here and a string a list of them.  The two character
    classes the parser consults, [str.isspace] (used by [str.strip] and by the
    regular expression class [\s]) and the decimal-digit class of [\d], live
    in the interpreter's Unicode tables, not in the repository: they are the
    two fields of the class [Unicode], constrained only on the ASCII range. *)

From Stdlib Require Import Ascii String.
From Stdlib Require Import List NArith ZArith Bool Lia.
From Stdlib Require QArith_base.
Import ListNotations.

(** ** Strings *)

Definition char := N.
Definition str := list char.

(** Code points of an ASCII literal. *)
Definition of_string (s : string) : str :=
  map N_of_ascii (list_ascii_of_string s).

Definition LF : char := 10%N.
Definition SPACE : char := 32%N.
Definition DQUOTE : char := 34%N.
Definition PERIOD : char := 46%N.

(** Truth value of a string or of a list: false exactly when empty. *)
Definition truthy {A : Type} (l : list A) : bool :=
  match l with [] => false | _ :: _ => true end.

(** [s.startswith(prefix)] *)
Fixpoint startswith (s prefix : str) {struct prefix} : bool :=
  match prefix, s with
  | [], _ => true
  | _ :: _, [] => false
  | p :: ps, c :: cs => N.eqb c p && startswith cs ps
  end.

(** [s.endswith(suffix)] *)
Definition endswith (s suffix : str) : bool :=
  startswith (rev s) (rev suffix).

(** Bound of a slice: negative indices count from the end, and the result is
    clipped to [0 .. len]. *)
Definition slice_bound (len i : Z) : Z :=
  if (i <? 0)%Z then Z.max 0 (len + i) else Z.min i len.

(** [s[lo:hi]] *)
Definition slice (lo hi : Z) (s : str) : str :=
  let len := Z.of_nat (length s) in
  let a := slice_bound len lo in
  let b := slice_bound len hi in
  firstn (Z.to_nat (b - a)) (skipn (Z.to_nat a) s).

(** [s[lo:]] *)
Definition slice_from (lo : Z) (s : str) : str :=
  skipn (Z.to_nat (slice_bound (Z.of_nat (length s)) lo)) s.

(** [s.split(sep)] for a one-character separator. *)
Fixpoint split_on (sep : char) (s : str) : list str :=
  match s with
  | [] => [[]]
  | c :: t =>
      if N.eqb c sep then [] :: split_on sep t
      else match split_on sep t with
           | l :: ls => (c :: l) :: ls
           | [] => [[c]]
           end
  end.

(** The ASCII part of the two character classes: Python's whitespace below
    128 is TAB, LF, VT, FF, CR, the four separators FS GS RS US, and SPACE;
    its decimal digits below 128 are '0' .. '9'. *)
Definition ascii_isspace (c : char) : bool :=
  ((9 <=? c) && (c <=? 13) || (28 <=? c) && (c <=? 32))%N.

Definition ascii_isdecimal (c : char) : bool :=
  ((48 <=? c) && (c <=? 57))%N.

(** [str.isspace] on one code point as CPython tabulates it
    ([_PyUnicode_IsWhitespace]). *)
Definition py_isspace (c : char) : bool :=
  (ascii_isspace c
   || (c =? 133) || (c =? 160) || (c =? 5760)
   || (8192 <=? c) && (c <=? 8202)
   || (c =? 8232) || (c =? 8233) || (c =? 8239) || (c =? 8287)
   || (c =? 12288))%N.

(** ** The parser *)

(** The character tables of the interpreter. *)
Class Unicode := {
  isspace : char -> bool;
  isdecimal : char -> bool
}.

Section Parser.

Context {U : Unicode}.

(** [s.lstrip()], which is also what a greedy [\s*] consumes. *)
Fixpoint lstrip (s : str) : str :=
  match s with
  | [] => []
  | c :: t => if isspace c then lstrip t else s
  end.

Definition rstrip (s : str) : str := rev (lstrip (rev s)).

(** [s.strip()] *)
Definition strip (s : str) : str := rstrip (lstrip s).

(** The longest run of decimal digits at the head of [s], and the rest. *)
Fixpoint span_digits (s : str) : str * str :=
  match s with
  | [] => ([], [])
  | c :: t =>
      if isdecimal c
      then let (ds, r) := span_digits t in (c :: ds, r)
      else ([], s)
  end.

(** A match of [\n\d+\.\s*] anchored at the head of [s]: the text after
    the match.  [\d+] is greedy and takes the whole run of digits; giving
    digits back cannot help because the next pattern character is a period,
    which is no digit.  [\s*] ends the pattern and takes all the whitespace
    that follows, line breaks included. *)
Definition match_label (s : str) : option str :=
  match s with
  | [] => None
  | c :: t =>
      if N.eqb c LF then
        match span_digits t with
        | (_ :: _, d :: r) => if N.eqb d PERIOD then Some (lstrip r) else None
        | _ => None
        end
      else None
  end.

(** Occurrences of a label, as the specification counts them: [s] begins
    with a line break, one or more digits and a period; with [spaced] a space
    must come next, without it the space is optional as in the pattern. *)
Definition label_here (spaced : bool) (s : str) : bool :=
  match s with
  | [] => false
  | c :: t =>
      N.eqb c LF &&
      match span_digits t with
      | (_ :: _, d :: r) =>
          N.eqb d PERIOD && (negb spaced || startswith r [SPACE])
      | _ => false
      end
  end.

(** The number of positions of [s] at which such a label begins. *)
Fixpoint count_labels (spaced : bool) (s : str) : nat :=
  match s with
  | [] => 0
  | _ :: t => (if label_here spaced s then 1 else 0) + count_labels spaced t
  end.

(** The leftmost match in [s]: the text before it and the text after it. *)
Fixpoint search (s : str) : option (str * str) :=
  match s with
  | [] => None
  | c :: t =>
      match match_label s with
      | Some r => Some ([], r)
      | None =>
          match search t with
          | Some (p, r) => Some (c :: p, r)
          | None => None
          end
      end
  end.

(** [re.split(r'\n\d+\.\s*', s)]: cut at the leftmost match, continue after
    it.  A match is never empty, so the length of the text bounds the number
    of cuts. *)
Fixpoint re_split_fuel (fuel : nat) (s : str) : list str :=
  match fuel with
  | O => [s]
  | S fuel' =>
      match search s with
      | None => [s]
      | Some (p, r) => p :: re_split_fuel fuel' r
      end
  end.

Definition re_split (s : str) : list str := re_split_fuel (length s) s.

(** The scan of [s] ends with a match that reaches the end of [s]: the
    split has more than one piece and its last piece is empty.  Used to state
    when a label that follows [s] is seen by the scan. *)
Definition ends_in_label (s : str) : bool :=
  (1 <? length (re_split s))%nat && negb (truthy (last (re_split s) [])).

(** [if c.startswith('1. '): c = c[3:]] *)
Definition strip_label (c : str) : str :=
  if startswith c (of_string "1. ") then slice_from 3 c else c.

(** [if len(c) > 2 and c.startswith('"') and c.endswith('"'): c = c[1:-1]] *)
Definition strip_quotes (c : str) : str :=
  if (2 <? length c)%nat && startswith c [DQUOTE] && endswith c [DQUOTE]
  then slice 1 (-1) c
  else c.

(** The body of the cleaning loop, up to the emptiness test. *)
Definition clean (comment : str) : str :=
  strip_quotes (strip_label (strip comment)).

(** The list the loop builds. *)
Definition primary (text_response : str) : list str :=
  filter truthy (map clean (re_split text_response)).

(** [[c.strip() for c in text_response.split('\n') if c.strip()]] *)
Definition fallback (text_response : str) : list str :=
  map strip (filter (fun c => truthy (strip c)) (split_on LF text_response)).

Definition apology : str :=
  of_string "Sorry, I couldn't generate a comment for that.".

(** The value of [cleaned_comments] when the [return] is reached. *)
Definition cleaned_comments (text_response : str) : list str :=
  let cleaned := primary text_response in
  if negb (truthy cleaned) && truthy text_response
  then fallback text_response
  else cleaned.

Definition parse_generated_comments (text_response : str) : list str :=
  let cleaned := cleaned_comments text_response in
  if truthy cleaned then cleaned else [apology].

End Parser.

(** Tables that agree with Python's on the ASCII range. *)
Definition ascii_compatible (U : Unicode) : Prop :=
  forall c, (c < 128)%N ->
    isspace c = ascii_isspace c /\ isdecimal c = ascii_isdecimal c.

(** Two tables classify [c] alike. *)
Definition agree (U1 U2 : Unicode) (c : char) : Prop :=
  @isspace U1 c = @isspace U2 c /\ @isdecimal U1 c = @isdecimal U2 c.

(** CPython's whitespace table with the ASCII digits: the tables with which
    texts are evaluated below. *)
Definition reference_tables : Unicode :=
  {| isspace := py_isspace; isdecimal := ascii_isdecimal |}.

(** The text has only ASCII characters. *)
Definition is_ascii (s : str) : bool := forallb (fun c => (c <? 128)%N) s.

(** ** The request handler *)

(** [class CommentRequest(BaseModel): keyword: str] *)
Record CommentRequest := { keyword : str }.

(** [class CommentResponse(BaseModel): keyword: str; generated_comments: list[str]] *)
Record CommentResponse := {
  response_keyword : str;
  generated_comments : list str
}.

(** What the declaration of [CommentRequest] asks of a request body: the
    field [keyword] has no default, so it must be present, and its type is
    [str]; no length bound and no validator is declared.  The argument is the
    text found under ["keyword"] in the body, if any. *)
Definition CommentRequest_validate (body_keyword : option str)
  : option CommentRequest :=
  match body_keyword with
  | Some k => Some {| keyword := k |}
  | None => None
  end.

(** One entry of [messages]. *)
Record Message := { role : str; content : str }.

(** The keyword arguments of [client.chat.completions.create]; [temperature]
    is the decimal literal of the source as a fraction. *)
Record CreateArgs := {
  messages : list Message;
  model : str;
  temperature : QArith_base.Q;
  max_tokens : Z
}.

(** A raised Python object, as far as the handler can tell: whether it is an
    instance of [Exception] (what [except Exception] tests) and its [str()]
    (what [{e}] formats). *)
Record PyError := { is_Exception : bool; exc_str : str }.

(** The completion object, reduced to what the handler reads:
    [choices[i].message.content], which may be [None]. *)
Record ChatCompletion := { choices : list (option str) }.

(** The upstream client: a call either raises or returns a completion. *)
Record Groq := { create : CreateArgs -> PyError + ChatCompletion }.

(** What leaves the handler when it does not return: the [HTTPException] it
    raises itself, or an object its [except] clause did not catch. *)
Inductive Raised :=
| HTTPException (status_code : Z) (detail : str)
| Uncaught (e : PyError).

(** Observable effects, in order: lines printed and upstream calls made. *)
Inductive Event :=
| Printed (line : str)
| Called (args : CreateArgs).

(** Computations that append to the trace of events and either raise an [E]
    or return an [A]. *)
Definition M (E A : Type) : Type := list Event -> (E + A) * list Event.

Definition ret {E A : Type} (a : A) : M E A := fun tr => (inr a, tr).

Definition raise {E A : Type} (e : E) : M E A := fun tr => (inl e, tr).

Definition bind {E A B : Type} (m : M E A) (k : A -> M E B) : M E B :=
  fun tr =>
    match m tr with
    | (inl e, tr') => (inl e, tr')
    | (inr a, tr') => k a tr'
    end.

Definition emit {E : Type} (ev : Event) : M E unit :=
  fun tr => (inr tt, tr ++ [ev]).

Notation "x <- m ;; k" := (bind m (fun x => k))
  (at level 61, m at next level, right associativity).
Notation "m ;;; k" := (bind m (fun _ => k))
  (at level 61, right associativity).

(** [try: body  except Exception as e: handler] *)
Definition try_except_Exception {A : Type}
  (body : M PyError A) (handler : PyError -> M Raised A) : M Raised A :=
  fun tr =>
    match body tr with
    | (inr a, tr') => (inr a, tr')
    | (inl e, tr') =>
        if is_Exception e then handler e tr' else (inl (Uncaught e), tr')
    end.

Definition MODEL : str := of_string "llama-3.1-8b-instant".

Definition system_prompt : str :=
  of_string
    "You are an expert at writing short, natural, and positive Facebook comments.".

(** The f-string of the handler, line by line. *)
Definition user_prompt (keyword : str) : str :=
  [LF]
  ++ of_string "    Generate 3 unique, short, and natural-sounding Facebook comments " ++ [LF]
  ++ of_string "    about the keyword: " ++ [DQUOTE] ++ keyword ++ [DQUOTE] ++ [LF]
  ++ [LF]
  ++ of_string "    Guidelines:" ++ [LF]
  ++ of_string "    - Sound human, like a real person would write." ++ [LF]
  ++ of_string "    - Keep them positive and engaging." ++ [LF]
  ++ of_string "    - Each comment should be 1-2 sentences." ++ [LF]
  ++ of_string "    - Return *only* the comments, each on a new line, starting with '1. ', '2. ', and '3. '." ++ [LF]
  ++ of_string "    - Do not add any extra text, introduction, or conclusion." ++ [LF]
  ++ of_string "    ".

(** The arguments of the one upstream call. *)
Definition create_args (keyword : str) : CreateArgs :=
  {| messages :=
       [ {| role := of_string "system"; content := system_prompt |};
         {| role := of_string "user"; content := user_prompt keyword |} ];
     model := MODEL;
     temperature := QArith_base.Qmake 7 10;
     max_tokens := 150 |}.

Definition not_initialized : str :=
  of_string "Groq client is not initialized. Check GROQ_API_KEY.".

Section Handler.

Context {U : Unicode}.

(** [str()] of the [TypeError] that [re.split] raises on [None]; the wording
    belongs to the interpreter. *)
Variable re_split_None : str.

(** [client.chat.completions.create(...)] *)
Definition call_create (client : Groq) (args : CreateArgs)
  : M PyError ChatCompletion :=
  emit (Called args) ;;;
  match create client args with
  | inl e => raise e
  | inr completion => ret completion
  end.

(** [chat_completion.choices[0].message.content] *)
Definition first_content (completion : ChatCompletion)
  : M PyError (option str) :=
  match choices completion with
  | [] => raise {| is_Exception := true;
                   exc_str := of_string "list index out of range" |}
  | c :: _ => ret c
  end.

(** [parse_generated_comments(raw_response)], where [raw_response] may be
    [None]. *)
Definition call_parse (raw_response : option str) : M PyError (list str) :=
  match raw_response with
  | None => raise {| is_Exception := true; exc_str := re_split_None |}
  | Some text => ret (parse_generated_comments text)
  end.

Definition generate_comment (client : option Groq) (request : CommentRequest)
  : M Raised CommentResponse :=
  match client with
  | None => raise (HTTPException 500 not_initialized)
  | Some client =>
      let keyword := keyword request in
      try_except_Exception
        (chat_completion <- call_create client (create_args keyword) ;;
         raw_response <- first_content chat_completion ;;
         comments <- call_parse raw_response ;;
         ret {| response_keyword := keyword;
                generated_comments := comments |})
        (fun e =>
           emit (Printed (of_string "Error calling Groq API: " ++ exc_str e)) ;;;
           raise (HTTPException 500
                    (of_string "Error generating comment: " ++ exc_str e)))
  end.

End Handler.

(** An error of the upstream: a failed connection. *)
Definition connection_error : PyError :=
  {| is_Exception := true; exc_str := of_string "Connection error." |}.

(** A raised object that is no error: an interrupt from the keyboard. *)
Definition interrupt : PyError :=
  {| is_Exception := false; exc_str := [] |}.

(** A client that answers every call with the same outcome. *)
Definition canned (outcome : PyError + ChatCompletion) : Groq :=
  {| create := fun _ => outcome |}.

(** ** Start-up *)

(** [not groq_api_key]: the key is missing or is the empty text. *)
Definition key_missing (groq_api_key : option str) : bool :=
  match groq_api_key with
  | None => true
  | Some k => negb (truthy k)
  end.

Definition key_warning_1 : str :=
  of_string "Error: GROQ_API_KEY environment variable not set.".

Definition key_warning_2 : str :=
  of_string "Please create a .env file and add GROQ_API_KEY=your_api_key".

Section Startup.

(** [Groq(api_key=...)]: the constructor of the client library, which raises
    or returns a client. *)
Variable Groq_new : option str -> PyError + Groq.

(** The module-level [try] block that binds [client]; [environ] is
    [os.environ.get].  The value returned is the value of the global
    [client] afterwards. *)
Definition init_client (environ : str -> option str) : M Raised (option Groq) :=
  try_except_Exception
    (let groq_api_key := environ (of_string "GROQ_API_KEY") in
     (if key_missing groq_api_key
      then emit (Printed key_warning_1) ;;; emit (Printed key_warning_2)
      else ret tt) ;;;
     match Groq_new groq_api_key with
     | inl e => raise e
     | inr client => ret (Some client)
     end)
    (fun e =>
       emit (Printed (of_string "Error initializing Groq client: " ++ exc_str e)) ;;;
       ret None).

(** The module is loaded, then one request is handled with the [client] the
    start-up left. *)
Definition startup_then_request {U : Unicode} (re_split_None : str)
  (environ : str -> option str) (request : CommentRequest)
  : M Raised CommentResponse :=
  client <- init_client environ ;;
  generate_comment re_split_None client request.

End Startup.

(** ** Vocabulary of the properties *)

(** The pieces of a split put back together with the separators that were
    cut out between them. *)
Fixpoint rejoin (pieces seps : list str) : str :=
  match pieces, seps with
  | [], _ => []
  | p :: _, [] => p
  | p :: ps, m :: ms => p ++ m ++ rejoin ps ms
  end.

(** [m] is a whole separator: a line break, digits, a period and nothing
    but whitespace after it. *)
Definition separator {U : Unicode} (m : str) : Prop :=
  exists ds w,
    ds <> [] /\ Forall (fun c => isdecimal c = true) ds /\
    forallb isspace w = true /\ m = LF :: ds ++ PERIOD :: w.

(** No character of the text is anything but whitespace. *)
Definition blank {U : Unicode} (s : str) : bool := forallb isspace s.

(** [x] is a run of consecutive characters of [s]. *)
Definition infix (x s : str) : Prop := exists a b, s = a ++ x ++ b.

(** The lines printed at start-up when the key is missing. *)
Definition key_warnings (groq_api_key : option str) : list Event :=
  if key_missing groq_api_key
  then [Printed key_warning_1; Printed key_warning_2]
  else [].

(** The events of a trace that are upstream calls. *)
Definition calls (tr : list Event) : list CreateArgs :=
  flat_map (fun ev => match ev with Called a => [a] | Printed _ => [] end) tr.

(** * Properties *)

(** ** Strings *)

Lemma truthy_nonempty {A : Type} (l : list A) : truthy l = true <-> l <> [].
Proof.
  destruct l; simpl; split; intro H; try reflexivity; congruence.
Qed.

Lemma truthy_false {A : Type} (l : list A) : truthy l = false <-> l = [].
Proof.
  destruct l; simpl; split; intro H; try reflexivity; congruence.
Qed.

Lemma filter_truthy_nonempty (l : list str) (f : str) :
  In f (filter truthy l) -> f <> [].
Proof.
  intro H. apply filter_In in H. destruct H as [_ H].
  now apply truthy_nonempty.
Qed.

(** A string longer than two characters whose ends are quotes. *)
Lemma wrapped_shape (c : str) :
  (2 < length c)%nat ->
  startswith c [DQUOTE] = true ->
  endswith c [DQUOTE] = true ->
  exists m, m <> [] /\ c = DQUOTE :: m ++ [DQUOTE].
Proof.
  intros Hlen Hs He.
  destruct c as [|a c]; simpl in Hlen; [lia|].
  simpl in Hs. rewrite andb_true_r in Hs. apply N.eqb_eq in Hs. subst a.
  destruct (exists_last (l := c)) as [m [z Hc]].
  { intro E; subst c; simpl in Hlen; lia. }
  subst c. exists m.
  unfold endswith in He. simpl in He. rewrite rev_app_distr in He.
  simpl in He. rewrite andb_true_r in He. apply N.eqb_eq in He. subst z.
  split; [|reflexivity].
  intro E; subst m. simpl in Hlen. lia.
Qed.

Lemma slice_inner (m : str) (a z : char) :
  slice 1 (-1) (a :: m ++ [z]) = m.
Proof.
  unfold slice, slice_bound.
  replace (length (a :: m ++ [z])) with (S (S (length m)))
    by (simpl; rewrite length_app; simpl; lia).
  change (1 <? 0)%Z with false. change (-1 <? 0)%Z with true. cbv iota.
  replace (Z.min 1 (Z.of_nat (S (S (length m))))) with 1%Z by lia.
  replace (Z.to_nat
             (Z.max 0 (Z.of_nat (S (S (length m))) + -1) - 1)) with (length m)
    by lia.
  change (Z.to_nat 1) with 1%nat. simpl skipn.
  now rewrite firstn_app, firstn_all, Nat.sub_diag, app_nil_r.
Qed.

Lemma strip_quotes_wrapped {m : str} :
  m <> [] -> strip_quotes (DQUOTE :: m ++ [DQUOTE]) = m.
Proof.
  intro Hm. unfold strip_quotes.
  assert (Hlen : (2 <? length (DQUOTE :: m ++ [DQUOTE]))%nat = true).
  { apply Nat.ltb_lt. simpl. rewrite length_app. simpl.
    destruct m; [congruence | simpl; lia]. }
  rewrite Hlen. unfold endswith. simpl rev. rewrite rev_app_distr. simpl.
  apply slice_inner.
Qed.

(** ** The split *)

Section ParserFacts.

Context {U : Unicode}.

Lemma lstrip_length (s : str) : (length (lstrip s) <= length s)%nat.
Proof.
  induction s as [|c t IH]; simpl; [lia|].
  destruct (isspace c); simpl; lia.
Qed.

Lemma span_digits_app (s : str) :
  s = fst (span_digits s) ++ snd (span_digits s).
Proof.
  induction s as [|c t IH]; simpl; [reflexivity|].
  destruct (isdecimal c); [|reflexivity].
  destruct (span_digits t) as [ds r]; simpl in *. now f_equal.
Qed.

Lemma span_digits_all (s : str) :
  Forall (fun c => isdecimal c = true) (fst (span_digits s)).
Proof.
  induction s as [|c t IH]; simpl; [constructor|].
  destruct (isdecimal c) eqn:E; [|constructor].
  destruct (span_digits t) as [ds r]; simpl in *. now constructor.
Qed.

(** The anatomy of a match: a line break, a non-empty run of digits, a
    period, then whitespace up to the returned rest. *)
Lemma match_label_inv (s r : str) :
  match_label s = Some r ->
  exists ds r0,
    ds <> [] /\ Forall (fun c => isdecimal c = true) ds /\
    s = LF :: ds ++ PERIOD :: r0 /\ r = lstrip r0.
Proof.
  destruct s as [|c t]; simpl; [discriminate|].
  destruct (N.eqb c LF) eqn:Ec; [|discriminate].
  apply N.eqb_eq in Ec. subst c.
  pose proof (span_digits_app t) as Happ.
  pose proof (span_digits_all t) as Hall.
  destruct (span_digits t) as [ds r1]; simpl in *.
  destruct ds as [|d ds]; [discriminate|].
  destruct r1 as [|p r0]; [discriminate|].
  destruct (N.eqb p PERIOD) eqn:Ep; [|discriminate].
  apply N.eqb_eq in Ep. subst p.
  intro H; injection H as <-.
  exists (d :: ds), r0. repeat split; try assumption; [discriminate|].
  now rewrite Happ.
Qed.

Lemma match_label_length (s r : str) :
  match_label s = Some r -> (length r + 3 <= length s)%nat.
Proof.
  intro H. apply match_label_inv in H.
  destruct H as (ds & r0 & Hds & _ & -> & ->).
  pose proof (lstrip_length r0).
  destruct ds; [congruence|].
  simpl. rewrite length_app. simpl. lia.
Qed.

(** A successful search cuts the text in three: before, the match, after. *)
Lemma search_inv (s p r : str) :
  search s = Some (p, r) ->
  exists u, s = p ++ u /\ match_label u = Some r.
Proof.
  revert p r; induction s as [|c t IH]; intros p r; [discriminate|].
  cbn [search].
  destruct (match_label (c :: t)) as [r'|] eqn:Em.
  - intro H; injection H as <- <-. now exists (c :: t).
  - destruct (search t) as [[p' r']|] eqn:Es; [|discriminate].
    intro H; injection H as <- <-.
    destruct (IH _ _ eq_refl) as (u & -> & Hu).
    now exists u.
Qed.

Lemma search_length (s p r : str) :
  search s = Some (p, r) -> (length p + length r + 3 <= length s)%nat.
Proof.
  intro H. apply search_inv in H. destruct H as (u & -> & Hu).
  apply match_label_length in Hu. rewrite length_app. lia.
Qed.

(** Fuel beyond the length of the text changes nothing. *)
Lemma re_split_fuel_irrelevant (n m : nat) (s : str) :
  (length s <= n)%nat -> (length s <= m)%nat ->
  re_split_fuel n s = re_split_fuel m s.
Proof.
  revert m s; induction n as [|n IH]; intros m s Hn Hm.
  - destruct s; [|simpl in Hn; lia].
    destruct m; reflexivity.
  - destruct m as [|m].
    + destruct s; [reflexivity | simpl in Hm; lia].
    + simpl. destruct (search s) as [[p r]|] eqn:Es; [|reflexivity].
      apply search_length in Es. f_equal. apply IH; lia.
Qed.

Lemma re_split_fuel_enough (n : nat) (s : str) :
  (length s <= n)%nat -> re_split_fuel n s = re_split s.
Proof.
  intro H. unfold re_split.
  now apply re_split_fuel_irrelevant.
Qed.

(** The equation of [re.split]: no match, the text is the only piece;
    otherwise the text before the leftmost match, then the split of the
    text after it. *)
Lemma re_split_eq (s : str) :
  re_split s =
  match search s with
  | None => [s]
  | Some (p, r) => p :: re_split r
  end.
Proof.
  unfold re_split at 1.
  destruct s as [|c t]; [reflexivity|].
  cbn [length re_split_fuel].
  destruct (search (c :: t)) as [[p r]|] eqn:Es; [|reflexivity].
  f_equal. apply re_split_fuel_enough.
  apply search_length in Es. simpl in Es. lia.
Qed.

Lemma re_split_nonempty (s : str) : re_split s <> [].
Proof.
  rewrite re_split_eq. destruct (search s) as [[p r]|]; discriminate.
Qed.

End ParserFacts.

(** ** The parser reads the tables only at the characters of its input *)

Section Extensionality.

Variables U1 U2 : Unicode.

Lemma lstrip_ext {s : str} : Forall (agree U1 U2) s -> @lstrip U1 s = @lstrip U2 s.
Proof.
  induction 1 as [|c t [Hc _] _ IH]; simpl; [reflexivity|].
  rewrite Hc, IH. reflexivity.
Qed.

Lemma lstrip_Forall {U : Unicode} {P : char -> Prop} {s : str} :
  Forall P s -> Forall P (lstrip s).
Proof.
  induction 1 as [|c t Hc Ht IH]; simpl; [constructor|].
  destruct (isspace c); [exact IH | now constructor].
Qed.

Lemma strip_ext {s : str} : Forall (agree U1 U2) s -> @strip U1 s = @strip U2 s.
Proof.
  intro H. unfold strip, rstrip.
  rewrite (lstrip_ext H). f_equal.
  apply lstrip_ext. apply Forall_rev, lstrip_Forall, H.
Qed.

Lemma span_digits_ext {s : str} :
  Forall (agree U1 U2) s -> @span_digits U1 s = @span_digits U2 s.
Proof.
  induction 1 as [|c t [_ Hc] _ IH]; simpl; [reflexivity|].
  rewrite Hc, IH. reflexivity.
Qed.

Lemma span_digits_Forall {U : Unicode} {P : char -> Prop} {s : str} :
  Forall P s -> Forall P (snd (span_digits s)).
Proof.
  intro H. rewrite (span_digits_app s) in H.
  now apply Forall_app in H.
Qed.

Lemma match_label_ext {s : str} :
  Forall (agree U1 U2) s -> @match_label U1 s = @match_label U2 s.
Proof.
  intro H. destruct s as [|c t]; [reflexivity|].
  unfold match_label. inversion H as [|? ? _ Ht]; subst.
  rewrite (span_digits_ext Ht).
  pose proof (span_digits_Forall (U := U2) Ht) as Hr.
  destruct (N.eqb c LF); [|reflexivity].
  destruct (span_digits t) as [[|d ds] [|p r]]; try reflexivity.
  destruct (N.eqb p PERIOD); [|reflexivity].
  simpl in Hr. inversion Hr; subst.
  f_equal. now apply lstrip_ext.
Qed.

Lemma match_label_Forall {U : Unicode} {P : char -> Prop} {s r : str} :
  Forall P s -> match_label s = Some r -> Forall P r.
Proof.
  intros H Hm. apply match_label_inv in Hm.
  destruct Hm as (ds & r0 & _ & _ & -> & ->).
  inversion H as [|? ? _ H']; subst.
  apply Forall_app in H'. destruct H' as [_ H'].
  inversion H'; subst. now apply lstrip_Forall.
Qed.

Lemma search_ext {s : str} : Forall (agree U1 U2) s -> @search U1 s = @search U2 s.
Proof.
  intro H. induction H as [|c t Hc Ht IH]; [reflexivity|].
  cbn [search].
  rewrite (@match_label_ext (c :: t)) by now constructor.
  now rewrite IH.
Qed.

Lemma search_Forall {U : Unicode} {P : char -> Prop} {s p r : str} :
  Forall P s -> search s = Some (p, r) -> Forall P p /\ Forall P r.
Proof.
  intros H Hs. apply search_inv in Hs. destruct Hs as (u & -> & Hu).
  apply Forall_app in H. destruct H as [Hp Hu'].
  split; [exact Hp|]. exact (match_label_Forall Hu' Hu).
Qed.

Lemma re_split_fuel_ext (n : nat) {s : str} :
  Forall (agree U1 U2) s -> @re_split_fuel U1 n s = @re_split_fuel U2 n s.
Proof.
  revert s; induction n as [|n IH]; intros s H; [reflexivity|].
  simpl. rewrite (search_ext H).
  destruct (@search U2 s) as [[p r]|] eqn:Es; [|reflexivity].
  f_equal. apply IH. exact (proj2 (search_Forall H Es)).
Qed.

Lemma re_split_fuel_Forall {U : Unicode} {P : char -> Prop}
      (n : nat) {s : str} :
  Forall P s -> Forall (Forall P) (re_split_fuel n s).
Proof.
  revert s; induction n as [|n IH]; intros s H; simpl.
  - now constructor.
  - destruct (search s) as [[p r]|] eqn:Es; [|now constructor].
    destruct (search_Forall H Es) as [Hp Hr].
    constructor; [exact Hp | now apply IH].
Qed.

Lemma clean_ext {s : str} : Forall (agree U1 U2) s -> @clean U1 s = @clean U2 s.
Proof.
  intro H. unfold clean. now rewrite (strip_ext H).
Qed.

Lemma primary_ext {s : str} : Forall (agree U1 U2) s -> @primary U1 s = @primary U2 s.
Proof.
  intro H. unfold primary, re_split.
  rewrite (re_split_fuel_ext _ H). f_equal.
  apply map_ext_in. intros p Hp.
  apply clean_ext.
  pose proof (re_split_fuel_Forall (U := U2) (length s) H) as Hall.
  rewrite Forall_forall in Hall. now apply Hall.
Qed.

Lemma split_on_Forall {P : char -> Prop} (sep : char) {s : str} :
  Forall P s -> Forall (Forall P) (split_on sep s).
Proof.
  induction 1 as [|c t Hc Ht IH]; simpl; [repeat constructor|].
  destruct (N.eqb c sep); [constructor; [constructor | exact IH]|].
  destruct (split_on sep t) as [|l ls]; [repeat constructor; exact Hc|].
  inversion IH; subst. constructor; [now constructor | assumption].
Qed.

Lemma fallback_ext {s : str} : Forall (agree U1 U2) s -> @fallback U1 s = @fallback U2 s.
Proof.
  intro H. unfold fallback.
  pose proof (split_on_Forall LF H) as Hall.
  induction Hall as [|l ls Hl _ IH]; [reflexivity|].
  simpl. rewrite (strip_ext Hl).
  destruct (truthy (@strip U2 l)); simpl; rewrite IH;
    [now rewrite (strip_ext Hl) | reflexivity].
Qed.

Lemma parse_generated_comments_ext {s : str} :
  Forall (agree U1 U2) s ->
  @parse_generated_comments U1 s = @parse_generated_comments U2 s.
Proof.
  intro H. unfold parse_generated_comments, cleaned_comments.
  now rewrite (primary_ext H), (fallback_ext H).
Qed.

End Extensionality.

Lemma reference_tables_ascii : ascii_compatible reference_tables.
Proof.
  intros c Hc. split; [|reflexivity].
  cbn [isspace reference_tables]. unfold py_isspace.
  repeat match goal with
         | |- context [N.eqb c ?k] =>
             replace (N.eqb c k) with false by (symmetry; apply N.eqb_neq; lia)
         end.
  replace (N.leb 8192 c) with false by (symmetry; apply N.leb_gt; lia).
  now rewrite ?orb_false_r.
Qed.

Lemma ascii_agree (U1 U2 : Unicode) (s : str) :
  ascii_compatible U1 -> ascii_compatible U2 -> is_ascii s = true ->
  Forall (agree U1 U2) s.
Proof.
  intros H1 H2 Hs. apply Forall_forall. intros c Hc.
  unfold is_ascii in Hs. rewrite forallb_forall in Hs.
  apply Hs, N.ltb_lt in Hc. unfold agree.
  destruct (H1 c Hc) as [-> ->], (H2 c Hc) as [-> ->]. now split.
Qed.

(** On ASCII text every admissible pair of tables gives the result computed
    with the reference tables. *)
Lemma parse_ascii {U : Unicode} {s : str} :
  ascii_compatible U -> is_ascii s = true ->
  @parse_generated_comments U s = @parse_generated_comments reference_tables s.
Proof.
  intros HU Hs. apply parse_generated_comments_ext.
  apply ascii_agree; [exact HU | exact reference_tables_ascii | exact Hs].
Qed.

(** Settles an equation between the parser on a closed ASCII text and its
    value: move to the reference tables, then compute. *)
Ltac by_evaluation HU :=
  rewrite (parse_ascii HU) by reflexivity; reflexivity.

(** ** The result is never empty *)

(** C1.  Whatever the text, the empty text included, the parser returns a
    list that is not empty, and when the numbered split and the line split
    both leave nothing the list is the apology alone.  The parser is a total
    function: the only bounded recursion, the split, has reached its result
    with the fuel it is given, more fuel changes nothing. *)
Theorem parse_generated_comments_total (U : Unicode) (s : str) :
  parse_generated_comments s <> []
  /\ (primary s = [] -> s = [] \/ fallback s = [] ->
      parse_generated_comments s = [apology])
  /\ (forall n, (length s <= n)%nat -> re_split_fuel n s = re_split s).
Proof.
  split; [|split].
  - unfold parse_generated_comments.
    destruct (cleaned_comments s) eqn:E; simpl; discriminate.
  - intros Hp Hf. unfold parse_generated_comments, cleaned_comments.
    rewrite Hp. destruct Hf as [-> | Hf]; [reflexivity|].
    simpl. destruct (truthy s); simpl; [now rewrite Hf | reflexivity].
  - intros n Hn. now apply re_split_fuel_enough.
Qed.

Lemma parse_generated_comments_total_witness :
  @primary reference_tables (of_string "   ") = []
  /\ @fallback reference_tables (of_string "   ") = []
  /\ @parse_generated_comments reference_tables (of_string "   ") = [apology]
  /\ @re_split_fuel reference_tables 7 (of_string "   ")
     = @re_split reference_tables (of_string "   ").
Proof.
  pose proof (parse_generated_comments_total reference_tables
                (of_string "   ")) as (_ & Hapology & Hfuel).
  split; [reflexivity|]. split; [reflexivity|].
  split; [apply Hapology; [reflexivity | right; reflexivity]|].
  apply Hfuel. simpl. lia.
Defined.

(** C4.  The empty text gives exactly the apology. *)
Theorem parse_generated_comments_empty (U : Unicode) :
  parse_generated_comments [] =
  [of_string "Sorry, I couldn't generate a comment for that."].
Proof. reflexivity. Qed.

(** ** Worked texts *)

(** C5.  The numbered list of three comments is split at its labels, the
    leading ['1. '] is removed from the first piece, and the comments come in
    their order of appearance. *)
Theorem parse_numbered_list (U : Unicode) (HU : ascii_compatible U) :
  parse_generated_comments
    (of_string "1. Great post!" ++ [LF]
     ++ of_string "2. Love this!" ++ [LF]
     ++ of_string "3. So true.")
  = [of_string "Great post!"; of_string "Love this!"; of_string "So true."].
Proof.
  by_evaluation HU.
Qed.

Lemma parse_numbered_list_witness :
  ascii_compatible reference_tables
  /\ @parse_generated_comments reference_tables
       (of_string "1. Great post!" ++ [LF]
        ++ of_string "2. Love this!" ++ [LF]
        ++ of_string "3. So true.")
     = [of_string "Great post!"; of_string "Love this!"; of_string "So true."].
Proof.
  split; [exact reference_tables_ascii|].
  apply (parse_numbered_list reference_tables). exact reference_tables_ascii.
Defined.

(** C3.  Quotes are removed exactly from a fragment longer than two
    characters whose first and last characters are double quotes, one
    character at each end; any other fragment is left as it is.  So
    [1. "Quoted comment"] gives [Quoted comment], and when [1. ] is followed
    by two quotes and nothing else the two quotes stay and are returned. *)
Theorem strip_quotes_exactly (U : Unicode) (HU : ascii_compatible U) :
  (forall c,
      (2 < length c)%nat ->
      startswith c [DQUOTE] = true -> endswith c [DQUOTE] = true ->
      c = DQUOTE :: strip_quotes c ++ [DQUOTE])
  /\ (forall c,
         ~ ((2 < length c)%nat /\
            startswith c [DQUOTE] = true /\ endswith c [DQUOTE] = true) ->
         strip_quotes c = c)
  /\ parse_generated_comments
       (of_string "1. " ++ [DQUOTE] ++ of_string "Quoted comment" ++ [DQUOTE])
     = [of_string "Quoted comment"]
  /\ parse_generated_comments (of_string "1. " ++ [DQUOTE; DQUOTE])
     = [[DQUOTE; DQUOTE]].
Proof.
  repeat split.
  - intros c Hlen Hs He.
    destruct (wrapped_shape c Hlen Hs He) as (m & Hm & ->).
    now rewrite (strip_quotes_wrapped Hm).
  - intros c Hc. unfold strip_quotes.
    destruct (2 <? length c)%nat eqn:Hlen; [|reflexivity].
    destruct (startswith c [DQUOTE]) eqn:Hs; [|reflexivity].
    destruct (endswith c [DQUOTE]) eqn:He; [|reflexivity].
    exfalso. apply Hc. apply Nat.ltb_lt in Hlen. now repeat split.
  - by_evaluation HU.
  - by_evaluation HU.
Qed.

Lemma strip_quotes_exactly_witness :
  ascii_compatible reference_tables
  /\ DQUOTE :: of_string "ab" ++ [DQUOTE]
     = DQUOTE :: strip_quotes (DQUOTE :: of_string "ab" ++ [DQUOTE]) ++ [DQUOTE]
  /\ strip_quotes [DQUOTE; DQUOTE] = [DQUOTE; DQUOTE]
  /\ @parse_generated_comments reference_tables
       (of_string "1. " ++ [DQUOTE; DQUOTE])
     = [[DQUOTE; DQUOTE]].
Proof.
  pose proof (strip_quotes_exactly reference_tables reference_tables_ascii)
    as (Hwrapped & Hother & _ & Htwo).
  split; [exact reference_tables_ascii|].
  split; [apply Hwrapped; [simpl; lia | reflexivity | reflexivity]|].
  split; [apply Hother; simpl; lia | exact Htwo].
Defined.

(** C10.  Nothing is trimmed after the quotes are removed: the spaces inside
    the quotes of [1. " hi "] are returned with the comment, and the single
    space inside [1. " "] is returned as a comment instead of being
    discarded, although [strip] would shorten both. *)
Theorem no_trim_after_quotes (U : Unicode) (HU : ascii_compatible U) :
  parse_generated_comments
    (of_string "1. " ++ [DQUOTE] ++ of_string " hi " ++ [DQUOTE])
  = [of_string " hi "]
  /\ parse_generated_comments
       (of_string "1. " ++ [DQUOTE] ++ of_string " " ++ [DQUOTE])
     = [of_string " "]
  /\ strip (of_string " hi ") = of_string "hi"
  /\ strip (of_string " ") = [].
Proof.
  pose proof (HU SPACE eq_refl) as [Hsp _].
  pose proof (HU 104%N eq_refl) as [Hh _].
  pose proof (HU 105%N eq_refl) as [Hi _].
  repeat split.
  - by_evaluation HU.
  - by_evaluation HU.
  - unfold strip, rstrip. simpl. unfold SPACE in Hsp. rewrite Hsp, Hh.
    simpl. rewrite Hsp, Hi. reflexivity.
  - unfold strip, rstrip. simpl. unfold SPACE in Hsp. now rewrite Hsp.
Qed.

Lemma no_trim_after_quotes_witness :
  ascii_compatible reference_tables
  /\ @parse_generated_comments reference_tables
       (of_string "1. " ++ [DQUOTE] ++ of_string " hi " ++ [DQUOTE])
     = [of_string " hi "].
Proof.
  split; [exact reference_tables_ascii|].
  apply (no_trim_after_quotes reference_tables reference_tables_ascii).
Defined.

(** ** A label after a text *)

Section Labels.

Context {U : Unicode}.
Hypothesis HU : ascii_compatible U.

Lemma LF_not_decimal : isdecimal LF = false.
Proof. now destruct (HU LF eq_refl) as [_ ->]. Qed.

Lemma PERIOD_not_decimal : isdecimal PERIOD = false.
Proof. now destruct (HU PERIOD eq_refl) as [_ ->]. Qed.

(** The run of digits of [t ++ x] is the run of [t] when [x] does not
    begin with a digit. *)
Lemma span_digits_append (t x : str) :
  (forall c y, x = c :: y -> isdecimal c = false) ->
  span_digits (t ++ x) = (fst (span_digits t), snd (span_digits t) ++ x).
Proof.
  intro Hx. induction t as [|c t IH]; simpl.
  - destruct x as [|c y]; simpl; [reflexivity|].
    now rewrite (Hx c y eq_refl).
  - destruct (isdecimal c); [|reflexivity].
    rewrite IH. now destruct (span_digits t).
Qed.

Lemma span_digits_run (ds r : str) :
  Forall (fun c => isdecimal c = true) ds ->
  span_digits (ds ++ PERIOD :: r) = (ds, PERIOD :: r).
Proof.
  induction 1 as [|d ds Hd _ IH]; simpl.
  - now rewrite PERIOD_not_decimal.
  - now rewrite Hd, IH.
Qed.

(** A line break, digits in any number, and a period are matched, and the
    match swallows the whitespace that follows. *)
Lemma match_label_intro (ds r : str) :
  ds <> [] -> Forall (fun c => isdecimal c = true) ds ->
  match_label (LF :: ds ++ PERIOD :: r) = Some (lstrip r).
Proof.
  intros Hne Hds. unfold match_label.
  change (N.eqb LF LF) with true. cbv iota.
  rewrite (span_digits_run _ r Hds).
  destruct ds; [congruence | reflexivity].
Qed.

Lemma lstrip_app_nonempty (a b : str) :
  lstrip a <> [] -> lstrip (a ++ b) = lstrip a ++ b.
Proof.
  induction a as [|c a IH]; simpl; [congruence|].
  destruct (isspace c); [exact IH | reflexivity].
Qed.

(** Appending a line break and more to a text that does not begin with a
    match creates no match at its head. *)
Lemma match_label_app_None (c : char) (t y : str) :
  match_label (c :: t) = None ->
  match_label ((c :: t) ++ LF :: y) = None.
Proof.
  change ((c :: t) ++ LF :: y) with (c :: (t ++ LF :: y)).
  unfold match_label.
  destruct (N.eqb c LF); [|reflexivity].
  rewrite span_digits_append
    by (intros ? ? [= <- _]; exact LF_not_decimal).
  destruct (span_digits t) as [[|d ds] [|p r]]; simpl; try reflexivity.
  destruct (N.eqb p PERIOD); [discriminate | reflexivity].
Qed.

(** A match that leaves a non-empty rest is not changed by what is
    appended. *)
Lemma match_label_app_Some (s r y : str) :
  match_label s = Some r -> r <> [] ->
  match_label (s ++ LF :: y) = Some (r ++ LF :: y).
Proof.
  intros Hm Hr. apply match_label_inv in Hm.
  destruct Hm as (ds & r0 & Hne & Hds & -> & ->).
  change ((LF :: ds ++ PERIOD :: r0) ++ LF :: y)
    with (LF :: (ds ++ PERIOD :: r0) ++ LF :: y).
  rewrite <- app_assoc. cbn [app].
  rewrite (match_label_intro _ _ Hne Hds).
  now rewrite lstrip_app_nonempty.
Qed.

Lemma search_None_head (c : char) (t : str) :
  search (c :: t) = None -> match_label (c :: t) = None /\ search t = None.
Proof.
  cbn [search]. destruct (match_label (c :: t)); [discriminate|].
  destruct (search t) as [[? ?]|]; [discriminate | now split].
Qed.

Lemma search_app_None (a y r : str) :
  search a = None -> match_label (LF :: y) = Some r ->
  search (a ++ LF :: y) = Some (a, r).
Proof.
  intros Ha Hy. induction a as [|c t IH].
  - cbn [app search]. now rewrite Hy.
  - apply search_None_head in Ha. destruct Ha as [Hm Ht].
    change ((c :: t) ++ LF :: y) with (c :: (t ++ LF :: y)).
    cbn [search].
    change (c :: (t ++ LF :: y)) with ((c :: t) ++ LF :: y).
    rewrite (match_label_app_None _ _ _ Hm).
    now rewrite (IH Ht).
Qed.

Lemma search_app_Some (a p r y : str) :
  search a = Some (p, r) -> r <> [] ->
  search (a ++ LF :: y) = Some (p, r ++ LF :: y).
Proof.
  revert p. induction a as [|c t IH]; intros p Ha Hr; [discriminate|].
  change ((c :: t) ++ LF :: y) with (c :: (t ++ LF :: y)).
  cbn [search] in *.
  change (c :: (t ++ LF :: y)) with ((c :: t) ++ LF :: y).
  destruct (match_label (c :: t)) as [r'|] eqn:Em.
  - injection Ha as <- <-.
    now rewrite (match_label_app_Some _ _ _ Em Hr).
  - rewrite (match_label_app_None _ _ _ Em).
    destruct (search t) as [[p' r']|] eqn:Es; [|discriminate].
    injection Ha as <- <-.
    now rewrite (IH _ eq_refl Hr).
Qed.

Lemma last_cons_nonempty {A : Type} (x : A) (l : list A) (d : A) :
  l <> [] -> last (x :: l) d = last l d.
Proof. destruct l; [congruence | reflexivity]. Qed.

(** The pieces of a text followed by a label are the pieces of the text,
    then the pieces of what follows the label, unless the text itself ends
    in a match. *)
Lemma re_split_app_label (a y r : str) :
  ends_in_label a = false ->
  match_label (LF :: y) = Some r ->
  re_split (a ++ LF :: y) = re_split a ++ re_split r.
Proof.
  intros Ha Hy.
  remember (length a) as n eqn:Hn.
  revert a Hn Ha. induction n as [n IH] using lt_wf_ind. intros a Hn Ha.
  rewrite (re_split_eq (a ++ LF :: y)), (re_split_eq a).
  destruct (search a) as [[p r']|] eqn:Es.
  - assert (Hends : ends_in_label r' = false /\ r' <> []).
    { unfold ends_in_label in Ha. rewrite (re_split_eq a), Es in Ha.
      pose proof (re_split_nonempty r') as Hne.
      rewrite (last_cons_nonempty _ _ _ Hne) in Ha.
      replace (1 <? length (p :: re_split r'))%nat with true in Ha
        by (symmetry; apply Nat.ltb_lt; simpl;
            destruct (re_split r'); [congruence | simpl; lia]).
      simpl in Ha. split.
      - unfold ends_in_label. rewrite Ha. apply andb_false_r.
      - intro E. subst r'. discriminate Ha. }
    destruct Hends as [Hr' Hne].
    rewrite (search_app_Some _ _ _ _ Es Hne). cbn [app]. f_equal.
    apply search_length in Es.
    apply (IH (length r')); [lia | reflexivity | exact Hr'].
  - now rewrite (search_app_None _ _ _ Es Hy).
Qed.

End Labels.

(** ** Trimming *)

Section Trimming.

Context {U : Unicode}.

Lemma lstrip_head {s t : str} {c : char} :
  lstrip s = c :: t -> isspace c = false.
Proof.
  induction s as [|a s IH]; simpl; [discriminate|].
  destruct (isspace a) eqn:Ea; [exact IH|].
  now intros [= <- _].
Qed.

Lemma lstrip_fixed (s : str) :
  (forall c t, s = c :: t -> isspace c = false) -> lstrip s = s.
Proof.
  destruct s as [|c t]; [reflexivity|]. intro H.
  simpl. now rewrite (H c t eq_refl).
Qed.

Lemma lstrip_idempotent (s : str) : lstrip (lstrip s) = lstrip s.
Proof.
  apply lstrip_fixed. intros c t H. exact (lstrip_head H).
Qed.

(** What [lstrip] removes is whitespace. *)
Lemma lstrip_prefix (s : str) :
  exists w, s = w ++ lstrip s /\ forallb isspace w = true.
Proof.
  induction s as [|c s (w & Hw & Hall)]; simpl; [now exists []|].
  destruct (isspace c) eqn:Ec.
  - exists (c :: w). simpl. rewrite Ec, Hall. split; [now f_equal | reflexivity].
  - now exists [].
Qed.

Lemma lstrip_nil (s : str) : lstrip s = [] <-> forallb isspace s = true.
Proof.
  induction s as [|c s IH]; simpl; [tauto|].
  destruct (isspace c); simpl; [exact IH|].
  split; discriminate.
Qed.

Lemma forallb_rev (f : char -> bool) (s : str) :
  forallb f (rev s) = forallb f s.
Proof.
  induction s as [|c s IH]; simpl; [reflexivity|].
  rewrite forallb_app, IH. simpl. rewrite andb_true_r. apply andb_comm.
Qed.

Lemma rev_nil {A : Type} (l : list A) : rev l = [] -> l = [].
Proof.
  intro H. apply (f_equal (@length A)) in H. rewrite length_rev in H.
  now apply length_zero_iff_nil.
Qed.

(** A fragment is empty after trimming exactly when it is all whitespace. *)
Lemma strip_nil (s : str) : strip s = [] <-> forallb isspace s = true.
Proof.
  unfold strip, rstrip. split.
  - intro H. apply rev_nil, lstrip_nil in H.
    rewrite forallb_rev in H.
    destruct (lstrip s) as [|c t] eqn:E; [now apply lstrip_nil|].
    apply lstrip_head in E. simpl in H. now rewrite E in H.
  - intro H. apply lstrip_nil in H. now rewrite H.
Qed.

Lemma strip_truthy (s : str) : truthy (strip s) = negb (forallb isspace s).
Proof.
  destruct (forallb isspace s) eqn:E.
  - apply strip_nil in E. now rewrite E.
  - destruct (strip s) eqn:Es; [|reflexivity].
    apply strip_nil in Es. congruence.
Qed.

Lemma lstrip_snoc (a : str) {c : char} :
  isspace c = false -> lstrip (a ++ [c]) = lstrip a ++ [c].
Proof.
  intro Hc. induction a as [|x a IH]; simpl; [now rewrite Hc|].
  destruct (isspace x); [exact IH | reflexivity].
Qed.

Lemma rstrip_cons {c : char} (t : str) :
  isspace c = false -> rstrip (c :: t) = c :: rstrip t.
Proof.
  intro Hc. unfold rstrip. simpl.
  rewrite (lstrip_snoc _ Hc), rev_app_distr. reflexivity.
Qed.

Lemma rstrip_idempotent (s : str) : rstrip (rstrip s) = rstrip s.
Proof.
  unfold rstrip. now rewrite rev_involutive, lstrip_idempotent.
Qed.

Lemma lstrip_rstrip (s : str) : lstrip s = s -> lstrip (rstrip s) = rstrip s.
Proof.
  intro H. destruct s as [|c t]; [reflexivity|].
  assert (Hc : isspace c = false) by exact (lstrip_head H).
  rewrite (rstrip_cons _ Hc). simpl. now rewrite Hc.
Qed.

(** Trimming twice is trimming once: the result of [strip] has no leading
    and no trailing whitespace. *)
Lemma strip_idempotent (s : str) : strip (strip s) = strip s.
Proof.
  unfold strip at 1.
  unfold strip. rewrite (lstrip_rstrip _ (lstrip_idempotent s)).
  apply rstrip_idempotent.
Qed.

Lemma slice_from_3 (a b c : char) (rest : str) :
  slice_from 3 (a :: b :: c :: rest) = rest.
Proof.
  unfold slice_from, slice_bound. change (3 <? 0)%Z with false. cbv iota.
  replace (Z.min 3 (Z.of_nat (length (a :: b :: c :: rest)))) with 3%Z
    by (simpl length; lia).
  reflexivity.
Qed.

Lemma strip_quotes_nonempty (c : str) : c <> [] -> strip_quotes c <> [].
Proof.
  intro Hc. unfold strip_quotes.
  destruct (2 <? length c)%nat eqn:Hlen; [|exact Hc].
  destruct (startswith c [DQUOTE]) eqn:Hs; [|exact Hc].
  destruct (endswith c [DQUOTE]) eqn:He; [|exact Hc].
  apply Nat.ltb_lt in Hlen.
  destruct (wrapped_shape c Hlen Hs He) as (m & Hm & ->).
  simpl. now rewrite slice_inner.
Qed.

Hypothesis HU : ascii_compatible U.

Lemma strip_label_nonempty (t : str) :
  strip t = t -> t <> [] -> strip_label t <> [].
Proof.
  intros Ht Hne. unfold strip_label.
  destruct (startswith t (of_string "1. ")) eqn:Hs; [|exact Hne].
  destruct t as [|a [|b [|c rest]]];
    simpl in Hs; rewrite ?andb_false_r in Hs; try discriminate Hs.
  rewrite slice_from_3. intro E. subst rest.
  rewrite andb_true_r in Hs.
  apply andb_prop in Hs. destruct Hs as [Ha Hs].
  apply andb_prop in Hs. destruct Hs as [Hb Hc].
  apply N.eqb_eq in Ha, Hb, Hc. subst a b c.
  rewrite (strip_ext U reference_tables) in Ht
    by (apply ascii_agree;
        [exact HU | exact reference_tables_ascii | reflexivity]).
  discriminate Ht.
Qed.

(** The loop discards a fragment exactly when it is empty after the first
    trim: removing the marker or the quotes never empties a fragment. *)
Lemma clean_nil (p : str) : clean p = [] <-> strip p = [].
Proof.
  split.
  - intro H. destruct (strip p) as [|c t] eqn:E; [reflexivity|].
    exfalso. revert H. unfold clean. rewrite E.
    apply strip_quotes_nonempty, strip_label_nonempty; [|discriminate].
    rewrite <- E. apply strip_idempotent.
  - intro H. unfold clean. now rewrite H.
Qed.

End Trimming.

(** ** Counting labels, pieces and lines *)

Section Counting.

Context {U : Unicode}.
Hypothesis HU : ascii_compatible U.

Lemma match_label_label_here (u r : str) :
  match_label u = Some r -> label_here false u = true.
Proof.
  intro H. apply match_label_inv in H.
  destruct H as (ds & r0 & Hne & Hds & -> & _).
  unfold label_here. rewrite (span_digits_run HU _ r0 Hds).
  destruct ds; [congruence | reflexivity].
Qed.

Lemma count_labels_app (b : bool) (x y : str) :
  (count_labels b y <= count_labels b (x ++ y))%nat.
Proof.
  induction x as [|c x IH]; [apply Nat.le_refl|].
  change ((c :: x) ++ y) with (c :: (x ++ y)).
  cbn [count_labels]. lia.
Qed.

(** Every cut of the split uses up a label of the text. *)
Lemma search_count (s p r : str) :
  search s = Some (p, r) ->
  (count_labels false r + 1 <= count_labels false s)%nat.
Proof.
  intro H. apply search_inv in H. destruct H as (u & -> & Hu).
  pose proof (match_label_label_here _ _ Hu) as Hh.
  apply match_label_inv in Hu.
  destruct Hu as (ds & r0 & _ & _ & -> & ->).
  destruct (lstrip_prefix r0) as (w & Hw & _).
  pose proof (count_labels_app false p (LF :: ds ++ PERIOD :: r0)) as H1.
  pose proof (count_labels_app false (ds ++ PERIOD :: w) (lstrip r0)) as H2.
  rewrite <- app_assoc in H2. cbn [app] in H2. rewrite <- Hw in H2.
  cbn [count_labels] in H1. rewrite Hh in H1. lia.
Qed.

Lemma re_split_count (s : str) :
  (length (re_split s) <= count_labels false s + 1)%nat.
Proof.
  remember (length s) as n eqn:Hn. revert s Hn.
  induction n as [n IH] using lt_wf_ind. intros s Hn.
  rewrite re_split_eq.
  destruct (search s) as [[p r]|] eqn:Es; [|simpl; lia].
  pose proof (search_count _ _ _ Es) as Hc.
  pose proof (search_length _ _ _ Es) as Hl.
  simpl. specialize (IH (length r) ltac:(lia) r eq_refl). lia.
Qed.

Lemma primary_length (s : str) :
  (length (primary s) <= length (re_split s))%nat.
Proof.
  unfold primary.
  rewrite <- (length_map clean (re_split s)). apply filter_length_le.
Qed.

(** *** Lines of the fallback *)

Lemma split_on_cons (sep : char) (x : str) :
  exists l ls, split_on sep x = l :: ls.
Proof.
  induction x as [|c x (l & ls & IH)]; simpl; [now exists [], []|].
  destruct (N.eqb c sep); [now eexists; eexists|].
  rewrite IH. now eexists; eexists.
Qed.

Lemma split_on_app_line (u x l : str) (ls : list str) :
  Forall (fun c => c <> LF) u ->
  split_on LF x = l :: ls ->
  split_on LF (u ++ x) = (u ++ l) :: ls.
Proof.
  intros Hu Hx. induction Hu as [|c u Hc _ IH]; [exact Hx|].
  cbn [app split_on]. apply N.eqb_neq in Hc. now rewrite Hc, IH.
Qed.

Lemma fallback_length (x : str) :
  length (fallback x) =
  length (filter (fun l => negb (forallb isspace l)) (split_on LF x)).
Proof.
  unfold fallback. rewrite length_map. f_equal.
  apply filter_ext. intro l. apply strip_truthy.
Qed.

Lemma fallback_space (c : char) (x : str) :
  isspace c = true -> length (fallback (c :: x)) = length (fallback x).
Proof.
  intro Hc. rewrite !fallback_length. cbn [split_on].
  destruct (N.eqb c LF); [reflexivity|].
  destruct (split_on_cons LF x) as (l & ls & ->).
  cbn [filter forallb]. rewrite Hc. cbn [andb].
  now destruct (negb (forallb isspace l)).
Qed.

Lemma fallback_spaces (w x : str) :
  forallb isspace w = true ->
  length (fallback (w ++ x)) = length (fallback x).
Proof.
  induction w as [|c w IH]; [reflexivity|].
  cbn [forallb app]. intro H. apply andb_prop in H. destruct H as [Hc Hw].
  rewrite (fallback_space _ _ Hc). now apply IH.
Qed.

Lemma fallback_blank (w : str) :
  forallb isspace w = true -> length (fallback w) = 0%nat.
Proof.
  intro H. rewrite <- (app_nil_r w). now rewrite (fallback_spaces _ _ H).
Qed.

Lemma fallback_LF (x : str) :
  length (fallback (LF :: x)) = length (fallback x).
Proof. rewrite !fallback_length. reflexivity. Qed.

(** Text without a line break in front of [x] adds at most one line. *)
Lemma fallback_line (u x : str) :
  Forall (fun c => c <> LF) u ->
  (length (fallback (u ++ x)) <= 1 + length (fallback x))%nat.
Proof.
  intro Hu. rewrite !fallback_length.
  destruct (split_on_cons LF x) as (l & ls & Hx).
  rewrite (split_on_app_line _ _ _ _ Hu Hx), Hx. cbn [filter].
  destruct (negb (forallb isspace (u ++ l))),
           (negb (forallb isspace l)); simpl; lia.
Qed.

Lemma digits_not_LF (ds : str) :
  Forall (fun c => isdecimal c = true) ds ->
  Forall (fun c => c <> LF) (ds ++ [PERIOD]).
Proof.
  intro H. apply Forall_app. split.
  - eapply Forall_impl; [|exact H]. intros c Hc ->.
    rewrite (LF_not_decimal HU) in Hc. discriminate.
  - repeat constructor. discriminate.
Qed.

(** When every piece of the split is blank, the text has fewer lines that
    are not blank than pieces. *)
Lemma fallback_bound (s : str) :
  Forall (fun p => forallb isspace p = true) (re_split s) ->
  (length (fallback s) + 1 <= length (re_split s))%nat.
Proof.
  remember (length s) as n eqn:Hn. revert s Hn.
  induction n as [n IH] using lt_wf_ind. intros s Hn.
  rewrite re_split_eq.
  destruct (search s) as [[p r]|] eqn:Es.
  - intro H. inversion H as [|? ? Hp Hr]; subst.
    pose proof (search_length _ _ _ Es) as Hl.
    specialize (IH (length r) ltac:(lia) r eq_refl Hr).
    apply search_inv in Es. destruct Es as (u & -> & Hu).
    apply match_label_inv in Hu.
    destruct Hu as (ds & r0 & _ & Hds & -> & ->).
    destruct (lstrip_prefix r0) as (w & Hw & Hall).
    rewrite (fallback_spaces _ _ Hp), fallback_LF.
    pose proof (fallback_line _ r0 (digits_not_LF _ Hds)) as H1.
    rewrite <- app_assoc in H1. cbn [app] in H1.
    rewrite Hw in H1 at 2. rewrite (fallback_spaces _ _ Hall) in H1.
    simpl. lia.
  - intro H. inversion H; subst. rewrite fallback_blank by assumption.
    simpl. lia.
Qed.

Lemma filter_nil {A : Type} (f : A -> bool) (l : list A) :
  filter f l = [] -> Forall (fun x => f x = false) l.
Proof.
  induction l as [|a l IH]; simpl; [constructor|].
  destruct (f a) eqn:E; [discriminate|]. now constructor; auto.
Qed.

Lemma primary_nil (s : str) :
  primary s = [] -> Forall (fun p => forallb isspace p = true) (re_split s).
Proof.
  intro H. unfold primary in H. apply filter_nil in H.
  rewrite Forall_map in H. eapply Forall_impl; [|exact H].
  intros p Hp. apply truthy_false in Hp.
  now apply strip_nil, (clean_nil HU).
Qed.

Lemma parse_length (s : str) :
  (length (parse_generated_comments s) <= count_labels false s + 1)%nat.
Proof.
  pose proof (re_split_count s) as Hc.
  pose proof (primary_length s) as Hp.
  unfold parse_generated_comments, cleaned_comments.
  destruct (primary s) as [|f fs] eqn:E.
  - pose proof (fallback_bound _ (primary_nil _ E)) as Hf.
    simpl. destruct (truthy s); simpl; [|lia].
    destruct (fallback s); simpl in *; lia.
  - simpl in *. lia.
Qed.

End Counting.

(** ** How many fragments, and what they look like *)

(** C2, as stated, fails twice.  In [a\n1.b] no line break is followed by
    digits, a period and a space, yet the text is cut in two; and the comment
    returned for [1. " hi "] begins and ends with a space. *)
Lemma fragments_counterexample :
  @count_labels reference_tables true
     (of_string "a" ++ [LF] ++ of_string "1.b") = 0%nat
  /\ @parse_generated_comments reference_tables
       (of_string "a" ++ [LF] ++ of_string "1.b")
     = [of_string "a"; of_string "b"]
  /\ @parse_generated_comments reference_tables
       (of_string "1. " ++ [DQUOTE] ++ of_string " hi " ++ [DQUOTE])
     = [of_string " hi "]
  /\ @strip reference_tables (of_string " hi ") <> of_string " hi ".
Proof.
  repeat split; try reflexivity. discriminate.
Qed.

(** C2 (amended).  With [k] the number of places where a line break is
    followed by one or more digits and a period, a space after the period
    being optional, the parser returns at most [k + 1] fragments.  Every
    returned fragment is non-empty and is the apology, or a trimmed line of
    the text (the fallback), or comes from a piece of the split: the piece
    is trimmed, which leaves a text [t] without leading or trailing
    whitespace, then a leading ['1. '] is removed from [t] and then, if what
    is left is longer than two characters and wrapped in double quotes, one
    quote at each end; nothing is trimmed after that. *)
Theorem parse_generated_comments_fragments
        (U : Unicode) (HU : ascii_compatible U) (s : str) :
  (length (parse_generated_comments s) <= count_labels false s + 1)%nat
  /\ forall f, In f (parse_generated_comments s) ->
       f <> [] /\
       (f = apology
        \/ (exists l, In l (split_on LF s) /\ f = strip l /\ strip f = f)
        \/ (exists p t, In p (re_split s) /\ t = strip p /\ strip t = t /\
                        f = strip_quotes (strip_label t))).
Proof.
  split; [exact (parse_length HU s)|].
  intros f Hf. unfold parse_generated_comments in Hf.
  destruct (truthy (cleaned_comments s)) eqn:Et.
  - unfold cleaned_comments in Hf.
    destruct (negb (truthy (primary s)) && truthy s).
    + unfold fallback in Hf. apply in_map_iff in Hf.
      destruct Hf as (l & <- & Hl). apply filter_In in Hl.
      destruct Hl as [Hin Hl]. split; [now apply truthy_nonempty|].
      right; left. exists l. repeat split; [exact Hin|].
      apply strip_idempotent.
    + split; [exact (filter_truthy_nonempty _ _ Hf)|].
      unfold primary in Hf. apply filter_In in Hf. destruct Hf as [Hf _].
      apply in_map_iff in Hf. destruct Hf as (p & <- & Hin).
      right; right. exists p, (strip p).
      repeat split; [exact Hin | apply strip_idempotent].
  - destruct Hf as [<- | []]. split; [discriminate | now left].
Qed.

Lemma parse_generated_comments_fragments_witness :
  ascii_compatible reference_tables
  /\ (length (@parse_generated_comments reference_tables
                (of_string "a" ++ [LF] ++ of_string "1.b"))
      <= @count_labels reference_tables false
           (of_string "a" ++ [LF] ++ of_string "1.b") + 1)%nat.
Proof.
  split; [exact reference_tables_ascii|].
  exact (proj1 (parse_generated_comments_fragments
                  reference_tables reference_tables_ascii
                  (of_string "a" ++ [LF] ++ of_string "1.b"))).
Defined.

(** ** Labels with several digits *)

(** C6, as stated, fails when the text before the label ends in a label
    itself: in [x\n1. \n10. B] the whitespace run of the first match takes
    the line break of the second label, the scan resumes at [10. B], and
    that label stays in the returned comment. *)
Lemma multi_digit_label_counterexample :
  @re_split reference_tables
     ((of_string "x" ++ [LF] ++ of_string "1. ")
      ++ [LF] ++ of_string "10. " ++ of_string "B")
  = [of_string "x"; of_string "10. B"]
  /\ @parse_generated_comments reference_tables
       ((of_string "x" ++ [LF] ++ of_string "1. ")
        ++ [LF] ++ of_string "10. " ++ of_string "B")
     = [of_string "x"; of_string "10. B"]
  /\ @ends_in_label reference_tables
       (of_string "x" ++ [LF] ++ of_string "1. ") = true.
Proof.
  repeat split; reflexivity.
Qed.

(** C6 (amended).  A line break, a run of digits of any length and a period
    are matched by the pattern whatever follows, and the split cuts there
    after every text that does not itself end in a separator match: the
    pieces are those of the text before the label followed by those of the
    text after the label and its whitespace.  So [Nice\n10. Cool] gives
    [Nice] and [Cool]. *)
Theorem multi_digit_label_split
        (U : Unicode) (HU : ascii_compatible U) (a ds r : str)
        (Hne : ds <> [])
        (Hds : Forall (fun c => isdecimal c = true) ds)
        (Ha : ends_in_label a = false) :
  match_label (LF :: ds ++ PERIOD :: r) = Some (lstrip r)
  /\ re_split (a ++ LF :: ds ++ PERIOD :: r)
     = re_split a ++ re_split (lstrip r)
  /\ parse_generated_comments (of_string "Nice" ++ [LF] ++ of_string "10. Cool")
     = [of_string "Nice"; of_string "Cool"].
Proof.
  pose proof (match_label_intro HU ds r Hne Hds) as Hm.
  split; [exact Hm|]. split.
  - exact (re_split_app_label HU a _ _ Ha Hm).
  - by_evaluation HU.
Qed.

Lemma multi_digit_label_split_witness :
  ascii_compatible reference_tables
  /\ of_string "10" <> []
  /\ Forall (fun c => @isdecimal reference_tables c = true) (of_string "10")
  /\ @ends_in_label reference_tables (of_string "Nice") = false
  /\ @re_split reference_tables
       (of_string "Nice" ++ LF :: of_string "10" ++ PERIOD :: of_string " Cool")
     = @re_split reference_tables (of_string "Nice")
       ++ @re_split reference_tables (@lstrip reference_tables (of_string " Cool")).
Proof.
  assert (H10 : Forall (fun c => @isdecimal reference_tables c = true)
                       (of_string "10")) by (repeat constructor).
  split; [exact reference_tables_ascii|].
  split; [discriminate|].
  split; [exact H10|].
  split; [reflexivity|].
  refine (proj1 (proj2
            (multi_digit_label_split reference_tables reference_tables_ascii
               (of_string "Nice") (of_string "10") (of_string " Cool")
               _ H10 eq_refl))).
  discriminate.
Defined.

(** ** The request handler *)

(** C7.  With no client the handler raises the HTTP error 500 whose detail
    is the configuration message, whatever the request, and the trace of
    effects is left as it was: nothing is printed and the upstream is not
    called. *)
Theorem generate_comment_not_initialized
        (U : Unicode) (re_split_None : str)
        (request : CommentRequest) (tr : list Event) :
  generate_comment re_split_None None request tr
  = (inl (HTTPException 500
            (of_string "Groq client is not initialized. Check GROQ_API_KEY.")),
     tr).
Proof. reflexivity. Qed.

(** C8.  When the upstream call raises an error, an instance of
    [Exception], the handler catches it: what leaves the handler is the HTTP
    error 500 whose detail is ["Error generating comment: "] followed by the
    text of the error, after the one upstream call and one printed line. *)
Theorem generate_comment_upstream_error
        (U : Unicode) (re_split_None : str)
        (client : Groq) (request : CommentRequest)
        (e : PyError) (tr : list Event)
        (Hraise : create client (create_args (keyword request)) = inl e)
        (Herr : is_Exception e = true) :
  generate_comment re_split_None (Some client) request tr
  = (inl (HTTPException 500
            (of_string "Error generating comment: " ++ exc_str e)),
     tr ++ [Called (create_args (keyword request));
            Printed (of_string "Error calling Groq API: " ++ exc_str e)]).
Proof.
  unfold generate_comment, try_except_Exception, call_create, bind, emit, raise.
  rewrite Hraise, Herr. now rewrite <- app_assoc.
Qed.

Lemma generate_comment_upstream_error_witness :
  create (canned (inl connection_error)) (create_args (of_string "coffee"))
  = inl connection_error
  /\ is_Exception connection_error = true
  /\ @generate_comment reference_tables []
       (Some (canned (inl connection_error)))
       {| keyword := of_string "coffee" |} []
     = (inl (HTTPException 500
               (of_string "Error generating comment: Connection error.")),
        [Called (create_args (of_string "coffee"));
         Printed (of_string "Error calling Groq API: Connection error.")]).
Proof.
  split; [reflexivity|]. split; [reflexivity|].
  exact (generate_comment_upstream_error reference_tables []
           (canned (inl connection_error))
           {| keyword := of_string "coffee" |} connection_error []
           eq_refl eq_refl).
Defined.

(** C9, as stated, fails: a request whose keyword is the empty text passes
    the validation of [CommentRequest] and is processed like any other, the
    upstream is called and the answer is returned. *)
Lemma empty_keyword_counterexample :
  CommentRequest_validate (Some []) = Some {| keyword := [] |}
  /\ @generate_comment reference_tables []
       (Some (canned (inr {| choices := [Some (of_string "1. Nice!")] |})))
       {| keyword := [] |} []
     = (inr {| response_keyword := [];
               generated_comments := [of_string "Nice!"] |},
        [Called (create_args [])]).
Proof.
  split; reflexivity.
Qed.

(** C9 (amended).  A request is accepted exactly when its body has a
    keyword, and the keyword is any text, the empty text included.  Every
    accepted request is processed the same way: when the upstream answers
    with a text, the handler calls it once and returns the keyword as it came
    together with the parsed comments. *)
Theorem keyword_unconstrained
        (U : Unicode) (re_split_None : str)
        (client : Groq) (body : option str) (request : CommentRequest)
        (text : str) (rest : list (option str)) (tr : list Event)
        (Hvalid : CommentRequest_validate body = Some request)
        (Hanswer : create client (create_args (keyword request))
                   = inr {| choices := Some text :: rest |}) :
  body = Some (keyword request)
  /\ (forall k, CommentRequest_validate (Some k) = Some {| keyword := k |})
  /\ CommentRequest_validate None = None
  /\ generate_comment re_split_None (Some client) request tr
     = (inr {| response_keyword := keyword request;
               generated_comments := parse_generated_comments text |},
        tr ++ [Called (create_args (keyword request))]).
Proof.
  repeat split.
  - destruct body as [k|]; [|discriminate].
    now injection Hvalid as <-.
  - unfold generate_comment, try_except_Exception, call_create, bind, emit.
    rewrite Hanswer. reflexivity.
Qed.

Lemma keyword_unconstrained_witness :
  CommentRequest_validate (Some []) = Some {| keyword := [] |}
  /\ create (canned (inr {| choices := [Some (of_string "1. Nice!")] |}))
       (create_args [])
     = inr {| choices := [Some (of_string "1. Nice!")] |}
  /\ @generate_comment reference_tables []
       (Some (canned (inr {| choices := [Some (of_string "1. Nice!")] |})))
       {| keyword := [] |} []
     = (inr {| response_keyword := [];
               generated_comments :=
                 @parse_generated_comments reference_tables
                   (of_string "1. Nice!") |},
        [Called (create_args [])]).
Proof.
  split; [reflexivity|]. split; [reflexivity|].
  exact (proj2 (proj2 (proj2
           (keyword_unconstrained reference_tables []
              (canned (inr {| choices := [Some (of_string "1. Nice!")] |}))
              (Some [])
              {| keyword := [] |} (of_string "1. Nice!") [] []
              eq_refl eq_refl)))).
Defined.

(** * Further properties of the parser *)

(** ** What the split keeps and what it cuts *)

Section Pieces.

Context {U : Unicode}.

Lemma rejoin_cons (p m : str) (ps ms : list str) :
  rejoin (p :: ps) (m :: ms) = p ++ m ++ rejoin ps ms.
Proof. reflexivity. Qed.

(** X1.  The split loses nothing but separators: there are separators,
    one fewer than the pieces and each a line break, digits, a period and
    whitespace, such that the pieces and they, put back in order, give the
    text again. *)
Theorem re_split_rejoin (s : str) :
  exists seps,
    length (re_split s) = S (length seps)
    /\ rejoin (re_split s) seps = s
    /\ Forall separator seps.
Proof.
  remember (length s) as n eqn:Hn. revert s Hn.
  induction n as [n IH] using lt_wf_ind. intros s Hn.
  rewrite re_split_eq.
  destruct (search s) as [[p r]|] eqn:Es.
  - pose proof (search_length _ _ _ Es) as Hl.
    destruct (IH (length r) ltac:(lia) r eq_refl) as (seps & Hlen & Hjoin & Hsep).
    apply search_inv in Es. destruct Es as (u & -> & Hu).
    apply match_label_inv in Hu.
    destruct Hu as (ds & r0 & Hne & Hds & -> & ->).
    destruct (lstrip_prefix r0) as (w & Hw & Hall).
    exists ((LF :: ds ++ PERIOD :: w) :: seps). repeat split.
    + simpl. now rewrite Hlen.
    + rewrite rejoin_cons, Hjoin. f_equal. cbn [app]. f_equal.
      rewrite <- app_assoc. cbn [app]. now rewrite <- Hw.
    + constructor; [|exact Hsep]. now exists ds, w.
  - exists []. repeat split. constructor.
Qed.

Lemma search_no_LF (s : str) :
  Forall (fun c => c <> LF) s -> search s = None.
Proof.
  induction 1 as [|c t Hc _ IH]; [reflexivity|].
  cbn [search]. unfold match_label.
  apply N.eqb_neq in Hc. now rewrite Hc, IH.
Qed.

Lemma split_on_no_sep (sep : char) (s : str) :
  Forall (Forall (fun c => c <> sep)) (split_on sep s).
Proof.
  induction s as [|c t IH]; simpl; [repeat constructor|].
  destruct (N.eqb c sep) eqn:E.
  - now constructor.
  - apply N.eqb_neq in E.
    destruct (split_on sep t) as [|l ls]; [repeat constructor; exact E|].
    inversion IH; subst. constructor; [now constructor | assumption].
Qed.

Lemma search_suffix (a y : str) : search (a ++ y) = None -> search y = None.
Proof.
  induction a as [|c a IH]; [trivial|].
  change ((c :: a) ++ y) with (c :: (a ++ y)). intro H.
  apply search_None_head in H. now apply IH.
Qed.

Lemma rstrip_suffix (s : str) :
  exists w, s = rstrip s ++ w /\ forallb isspace w = true.
Proof.
  destruct (lstrip_prefix (rev s)) as (w & Hw & Hall).
  exists (rev w). split.
  - unfold rstrip. rewrite <- rev_app_distr, <- Hw. now rewrite rev_involutive.
  - now rewrite forallb_rev.
Qed.

Hypothesis HU : ascii_compatible U.

(** A match stays a match when the text goes on. *)
Lemma match_label_extend (x y r : str) :
  match_label x = Some r -> match_label (x ++ y) <> None.
Proof.
  intro H. apply match_label_inv in H.
  destruct H as (ds & r0 & Hne & Hds & -> & _).
  change ((LF :: ds ++ PERIOD :: r0) ++ y)
    with (LF :: (ds ++ PERIOD :: r0) ++ y).
  rewrite <- app_assoc. cbn [app].
  rewrite (match_label_intro HU _ _ Hne Hds). discriminate.
Qed.

Lemma search_prefix (x b : str) : search (x ++ b) = None -> search x = None.
Proof.
  induction x as [|c x IH]; [reflexivity|].
  change ((c :: x) ++ b) with (c :: (x ++ b)). intro H.
  apply search_None_head in H. destruct H as [Hm Hs].
  cbn [search]. rewrite (IH Hs).
  destruct (match_label (c :: x)) as [r|] eqn:E; [|reflexivity].
  exfalso. exact (match_label_extend _ b _ E Hm).
Qed.

Lemma search_before (s p r : str) : search s = Some (p, r) -> search p = None.
Proof.
  revert p. induction s as [|c t IH]; intros p; [discriminate|].
  cbn [search].
  destruct (match_label (c :: t)) as [r'|] eqn:Em.
  - now intros [= <- _].
  - destruct (search t) as [[p' r']|] eqn:Es; [|discriminate].
    intros [= <- <-].
    pose proof (IH _ eq_refl) as Hp'.
    apply search_inv in Es. destruct Es as (u & -> & _).
    cbn [search]. rewrite Hp'.
    destruct (match_label (c :: p')) as [r''|] eqn:E; [|reflexivity].
    exfalso. exact (match_label_extend _ u _ E Em).
Qed.

(** No piece of the split has a separator left in it. *)
Lemma re_split_pieces (s : str) :
  Forall (fun p => search p = None) (re_split s).
Proof.
  remember (length s) as n eqn:Hn. revert s Hn.
  induction n as [n IH] using lt_wf_ind. intros s Hn.
  rewrite re_split_eq.
  destruct (search s) as [[p r]|] eqn:Es.
  - pose proof (search_length _ _ _ Es) as Hl.
    constructor; [exact (search_before _ _ _ Es)|].
    apply (IH (length r)); [lia | reflexivity].
  - now repeat constructor.
Qed.

Lemma search_strip (s : str) : search s = None -> search (strip s) = None.
Proof.
  intro H. unfold strip.
  destruct (lstrip_prefix s) as (w & Hw & _).
  rewrite Hw in H. apply search_suffix in H.
  destruct (rstrip_suffix (lstrip s)) as (w' & Hw' & _).
  rewrite Hw' in H. now apply search_prefix in H.
Qed.

Lemma search_strip_label (c : str) :
  search c = None -> search (strip_label c) = None.
Proof.
  intro H. unfold strip_label.
  destruct (startswith c (of_string "1. ")); [|exact H].
  unfold slice_from.
  rewrite <- (firstn_skipn
                (Z.to_nat (slice_bound (Z.of_nat (length c)) 3)) c) in H.
  exact (search_suffix _ _ H).
Qed.

Lemma search_strip_quotes (c : str) :
  search c = None -> search (strip_quotes c) = None.
Proof.
  intro H. unfold strip_quotes.
  destruct ((2 <? length c)%nat && startswith c [DQUOTE] && endswith c [DQUOTE]);
    [|exact H].
  unfold slice.
  set (a := Z.to_nat (slice_bound (Z.of_nat (length c)) 1)).
  set (k := Z.to_nat (slice_bound (Z.of_nat (length c)) (-1)
                      - slice_bound (Z.of_nat (length c)) 1)).
  rewrite <- (firstn_skipn a c) in H. apply search_suffix in H.
  rewrite <- (firstn_skipn k (skipn a c)) in H.
  exact (search_prefix _ _ H).
Qed.

Lemma search_clean (p : str) : search p = None -> search (clean p) = None.
Proof.
  intro H. unfold clean.
  now apply search_strip_quotes, search_strip_label, search_strip.
Qed.

(** Which pieces the loop keeps. *)
Lemma clean_truthy (p : str) : truthy (clean p) = negb (blank p).
Proof.
  unfold blank. rewrite <- strip_truthy.
  destruct (strip p) as [|c t] eqn:E.
  - apply (clean_nil HU) in E. now rewrite E.
  - destruct (clean p) eqn:Ec; [|reflexivity].
    apply (clean_nil HU) in Ec. congruence.
Qed.

Lemma filter_map_comm {A B : Type} (f : B -> bool) (g : A -> B) (l : list A) :
  filter f (map g l) = map g (filter (fun a => f (g a)) l).
Proof.
  induction l as [|a l IH]; simpl; [reflexivity|].
  destruct (f (g a)); simpl; now rewrite IH.
Qed.

Lemma primary_kept (s : str) :
  primary s = map clean (filter (fun p => negb (blank p)) (re_split s)).
Proof.
  unfold primary. rewrite filter_map_comm. f_equal.
  apply filter_ext. intro p. apply clean_truthy.
Qed.

Lemma blank_no_match (s : str) : blank s = true -> search s = None.
Proof.
  intro H. destruct (search s) as [[p r]|] eqn:Es; [|reflexivity].
  apply search_inv in Es. destruct Es as (u & -> & Hu).
  apply match_label_inv in Hu. destruct Hu as (ds & r0 & _ & _ & -> & _).
  unfold blank in H. rewrite forallb_app in H. cbn [forallb] in H.
  rewrite forallb_app in H. cbn [forallb] in H.
  destruct (HU PERIOD eq_refl) as [Hp _]. rewrite Hp in H.
  change (ascii_isspace PERIOD) with false in H.
  rewrite !andb_false_r in H. discriminate.
Qed.

Lemma fallback_blank_nil (s : str) : blank s = true -> fallback s = [].
Proof.
  intro H. apply length_zero_iff_nil. now apply fallback_blank.
Qed.

Lemma parse_blank (s : str) :
  blank s = true -> parse_generated_comments s = [apology].
Proof.
  intro H. unfold parse_generated_comments, cleaned_comments.
  rewrite primary_kept, re_split_eq, (blank_no_match _ H).
  cbn [filter]. rewrite H. cbn [negb map truthy andb].
  rewrite (fallback_blank_nil _ H). now destruct (truthy s).
Qed.

End Pieces.

(** ** When the line split is consulted *)

Section FallbackPath.

Context {U : Unicode}.
Hypothesis HU : ascii_compatible U.

Lemma LF_isspace : isspace LF = true.
Proof. now destruct (HU LF eq_refl) as [-> _]. Qed.

Lemma PERIOD_not_space : isspace PERIOD = false.
Proof. now destruct (HU PERIOD eq_refl) as [-> _]. Qed.

Lemma fallback_space_eq (c : char) (x : str) :
  isspace c = true -> fallback (c :: x) = fallback x.
Proof.
  intro Hc. unfold fallback. cbn [split_on].
  destruct (N.eqb c LF); [reflexivity|].
  destruct (split_on_cons LF x) as (l & ls & ->).
  assert (E : strip (c :: l) = strip l)
    by (unfold strip; cbn [lstrip]; now rewrite Hc).
  cbn [filter]. rewrite E.
  destruct (truthy (strip l)); cbn [map]; now rewrite ?E.
Qed.

Lemma fallback_spaces_eq (w x : str) :
  blank w = true -> fallback (w ++ x) = fallback x.
Proof.
  unfold blank. induction w as [|c w IH]; [reflexivity|].
  cbn [forallb app]. intro H. apply andb_prop in H. destruct H as [Hc Hw].
  rewrite (fallback_space_eq _ _ Hc). now apply IH.
Qed.

Lemma lstrip_app_blank (a b : str) :
  blank a = true -> lstrip (a ++ b) = lstrip b.
Proof.
  unfold blank. induction a as [|c a IH]; [reflexivity|].
  cbn [forallb app lstrip]. intro H. apply andb_prop in H.
  destruct H as [-> Ha]. now apply IH.
Qed.

Lemma blank_lines (sep : char) (s : str) :
  blank s = true -> Forall (fun l => blank l = true) (split_on sep s).
Proof.
  intro H. unfold blank in H. rewrite forallb_forall in H.
  assert (Hall : Forall (fun c => isspace c = true) s)
    by now apply Forall_forall.
  pose proof (split_on_Forall sep Hall) as Hl.
  eapply Forall_impl; [|exact Hl].
  intros l Hl'. unfold blank. apply forallb_forall.
  now apply Forall_forall.
Qed.

Lemma filter_blank_lines (ls : list str) :
  Forall (fun l => blank l = true) ls ->
  filter (fun c => truthy (strip c)) ls = [].
Proof.
  induction 1 as [|l ls Hl _ IH]; [reflexivity|].
  cbn [filter]. rewrite strip_truthy. unfold blank in Hl. now rewrite Hl.
Qed.

Hypothesis Hdigits : forall c, isdecimal c = true -> isspace c = false.

(** A bare label with whitespace after it is a line that trims to the
    label. *)
Lemma strip_label_line (ds l : str) :
  ds <> [] -> Forall (fun c => isdecimal c = true) ds -> blank l = true ->
  strip ((ds ++ [PERIOD]) ++ l) = ds ++ [PERIOD].
Proof.
  intros Hne Hds Hl. unfold strip.
  destruct ds as [|d ds]; [congruence|].
  inversion Hds as [|? ? Hd _]; subst.
  cbn [app lstrip]. rewrite (Hdigits _ Hd).
  unfold rstrip.
  change (d :: (ds ++ [PERIOD]) ++ l) with ((d :: ds ++ [PERIOD]) ++ l).
  rewrite rev_app_distr, lstrip_app_blank
    by (unfold blank; now rewrite forallb_rev).
  change (d :: ds ++ [PERIOD]) with ((d :: ds) ++ [PERIOD]).
  rewrite rev_app_distr. cbn [rev app lstrip].
  rewrite PERIOD_not_space.
  change (PERIOD :: rev ds ++ [d]) with ([PERIOD] ++ rev (d :: ds)).
  now rewrite rev_app_distr, rev_involutive.
Qed.

Lemma fallback_label_line (ds r0 : str) :
  ds <> [] -> Forall (fun c => isdecimal c = true) ds -> blank r0 = true ->
  fallback (ds ++ PERIOD :: r0) = [ds ++ [PERIOD]].
Proof.
  intros Hne Hds Hr0.
  destruct (split_on_cons LF r0) as (l & ls & Hx).
  pose proof (blank_lines LF _ Hr0) as Hlines. rewrite Hx in Hlines.
  inversion Hlines as [|? ? Hl Hls]; subst.
  change (ds ++ PERIOD :: r0) with (ds ++ [PERIOD] ++ r0).
  rewrite app_assoc. unfold fallback.
  rewrite (split_on_app_line _ _ _ _ (digits_not_LF HU _ Hds) Hx).
  cbn [filter]. rewrite (strip_label_line _ _ Hne Hds Hl).
  replace (truthy (ds ++ [PERIOD])) with true
    by (destruct ds; [congruence | reflexivity]).
  rewrite (filter_blank_lines _ Hls). cbn [map].
  now rewrite (strip_label_line _ _ Hne Hds Hl).
Qed.

(** After a match, the rest begins with no whitespace; if all its pieces
    are blank it is empty. *)
Lemma blank_pieces_rest (r : str) :
  (forall c t, r = c :: t -> isspace c = false) ->
  Forall (fun p => forallb isspace p = true) (re_split r) ->
  r = [].
Proof.
  intros Hhead Hall. destruct r as [|c t]; [reflexivity|].
  exfalso. specialize (Hhead c t eq_refl).
  rewrite re_split_eq in Hall.
  destruct (search (c :: t)) as [[p r']|] eqn:Es.
  - inversion Hall as [|? ? Hp _]; subst.
    apply search_inv in Es. destruct Es as (u & Hs & Hu).
    apply match_label_inv in Hu. destruct Hu as (ds & r0 & _ & _ & -> & _).
    destruct p as [|c' p'].
    + injection Hs as -> _. rewrite LF_isspace in Hhead. discriminate.
    + injection Hs as -> _. cbn [forallb] in Hp.
      rewrite Hhead in Hp. discriminate.
  - inversion Hall as [|? ? Hp _]; subst. cbn [forallb] in Hp.
    rewrite Hhead in Hp. discriminate.
Qed.

Lemma fallback_shape (s : str) :
  primary s = [] ->
  blank s = true
  \/ exists p ds w,
       blank p = true /\ ds <> [] /\
       Forall (fun c => isdecimal c = true) ds /\ blank w = true /\
       s = p ++ LF :: ds ++ PERIOD :: w /\
       fallback s = [ds ++ [PERIOD]].
Proof.
  intro Hnone. pose proof (primary_nil HU _ Hnone) as Hall.
  rewrite re_split_eq in Hall.
  destruct (search s) as [[p r]|] eqn:Es.
  - right. inversion Hall as [|? ? Hp Hr]; subst.
    apply search_inv in Es. destruct Es as (u & -> & Hu).
    apply match_label_inv in Hu.
    destruct Hu as (ds & r0 & Hne & Hds & -> & ->).
    assert (Hr0 : lstrip r0 = []).
    { apply blank_pieces_rest; [|exact Hr].
      intros c t E. exact (lstrip_head E). }
    apply lstrip_nil in Hr0.
    exists p, ds, r0. repeat split; try assumption.
    rewrite (fallback_spaces_eq _ _ Hp), (fallback_space_eq _ _ LF_isspace).
    now apply fallback_label_line.
  - left. now inversion Hall.
Qed.

End FallbackPath.

Lemma reference_digits_not_space (c : char) :
  @isdecimal reference_tables c = true -> @isspace reference_tables c = false.
Proof.
  cbn [isdecimal isspace reference_tables]. unfold ascii_isdecimal.
  intro H. apply andb_prop in H. destruct H as [H1 H2].
  apply N.leb_le in H1, H2.
  assert (Hc : (c = 48 \/ c = 49 \/ c = 50 \/ c = 51 \/ c = 52 \/ c = 53
                \/ c = 54 \/ c = 55 \/ c = 56 \/ c = 57)%N) by lia.
  repeat (destruct Hc as [-> | Hc]; [reflexivity|]). now subst c.
Qed.

(** ** The parser, path by path *)

(** X2.  No returned comment has a separator left in it: the pattern
    matches nowhere in a comment the parser returns. *)
Theorem comments_have_no_separator
        (U : Unicode) (HU : ascii_compatible U) (s f : str)
        (Hf : In f (parse_generated_comments s)) :
  search f = None.
Proof.
  unfold parse_generated_comments in Hf.
  destruct (truthy (cleaned_comments s)).
  - unfold cleaned_comments in Hf.
    destruct (negb (truthy (primary s)) && truthy s).
    + unfold fallback in Hf. apply in_map_iff in Hf.
      destruct Hf as (l & <- & Hl). apply filter_In in Hl.
      destruct Hl as [Hin _].
      apply (search_strip HU), search_no_LF.
      pose proof (split_on_no_sep LF s) as Hall.
      rewrite Forall_forall in Hall. now apply Hall.
    + unfold primary in Hf. apply filter_In in Hf. destruct Hf as [Hf _].
      apply in_map_iff in Hf. destruct Hf as (p & <- & Hin).
      apply (search_clean HU).
      pose proof (re_split_pieces HU s) as Hall.
      rewrite Forall_forall in Hall. now apply Hall.
  - destruct Hf as [<- | []]. reflexivity.
Qed.

Lemma comments_have_no_separator_witness :
  ascii_compatible reference_tables
  /\ In (of_string "10. B")
        (@parse_generated_comments reference_tables
           (of_string "x" ++ [LF] ++ of_string "1. " ++ [LF]
            ++ of_string "10. B"))
  /\ @search reference_tables (of_string "10. B") = None.
Proof.
  assert (Hin : In (of_string "10. B")
                   (@parse_generated_comments reference_tables
                      (of_string "x" ++ [LF] ++ of_string "1. " ++ [LF]
                       ++ of_string "10. B")))
    by (right; left; reflexivity).
  split; [exact reference_tables_ascii|]. split; [exact Hin|].
  exact (comments_have_no_separator reference_tables reference_tables_ascii
           _ _ Hin).
Defined.

(** X3.  When some piece of the split has a character that is not
    whitespace, the result is the pieces that are not blank, each one
    cleaned, in their order in the text: only blank pieces are dropped, and
    the line split is not consulted. *)
Theorem primary_path
        (U : Unicode) (HU : ascii_compatible U) (s : str)
        (Hsome : exists p, In p (re_split s) /\ blank p = false) :
  parse_generated_comments s
  = map clean (filter (fun p => negb (blank p)) (re_split s)).
Proof.
  destruct Hsome as (p & Hin & Hp).
  unfold parse_generated_comments, cleaned_comments.
  rewrite (primary_kept HU).
  assert (Hkept : In p (filter (fun p => negb (blank p)) (re_split s)))
    by (apply filter_In; split; [exact Hin | now rewrite Hp]).
  destruct (filter (fun p => negb (blank p)) (re_split s)) as [|q qs];
    [contradiction | reflexivity].
Qed.

Lemma primary_path_witness :
  ascii_compatible reference_tables
  /\ (exists p,
         In p (@re_split reference_tables
                 (of_string "a" ++ [LF] ++ of_string "1.  " ++ [LF]
                  ++ of_string "2. b"))
         /\ @blank reference_tables p = false)
  /\ @parse_generated_comments reference_tables
       (of_string "a" ++ [LF] ++ of_string "1.  " ++ [LF] ++ of_string "2. b")
     = [of_string "a"; of_string "2. b"].
Proof.
  assert (Hsome : exists p,
             In p (@re_split reference_tables
                     (of_string "a" ++ [LF] ++ of_string "1.  " ++ [LF]
                      ++ of_string "2. b"))
             /\ @blank reference_tables p = false)
    by (exists (of_string "a"); split; [left; reflexivity | reflexivity]).
  split; [exact reference_tables_ascii|]. split; [exact Hsome|].
  exact (primary_path reference_tables reference_tables_ascii _ Hsome).
Defined.

(** X4.  The line split is consulted only when the loop kept nothing, and
    then it has nothing to give but a bare label: either the text is blank
    and the result is the apology, or the text is blank up to one label
    (line break, digits, period) with only whitespace after it, and the
    result is that label, digits and period, alone. *)
Theorem fallback_path
        (U : Unicode) (HU : ascii_compatible U)
        (Hdigits : forall c, isdecimal c = true -> isspace c = false)
        (s : str) (Hnone : primary s = []) :
  (blank s = true /\ parse_generated_comments s = [apology])
  \/ exists p ds w,
       blank p = true /\ ds <> [] /\
       Forall (fun c => isdecimal c = true) ds /\ blank w = true /\
       s = p ++ LF :: ds ++ PERIOD :: w /\
       parse_generated_comments s = [ds ++ [PERIOD]].
Proof.
  destruct (fallback_shape HU Hdigits s Hnone)
    as [Hb | (p & ds & w & Hp & Hne & Hds & Hw & Hs & Hf)].
  - left. split; [exact Hb | exact (parse_blank HU _ Hb)].
  - right. exists p, ds, w. repeat split; try assumption.
    unfold parse_generated_comments, cleaned_comments.
    rewrite Hnone, Hf.
    replace (truthy s) with true
      by (rewrite Hs; destruct p; reflexivity).
    cbn [negb truthy andb]. destruct ds; [congruence | reflexivity].
Qed.

Lemma fallback_path_witness :
  ascii_compatible reference_tables
  /\ (forall c, @isdecimal reference_tables c = true ->
                @isspace reference_tables c = false)
  /\ @primary reference_tables ([SPACE; LF] ++ of_string "12. ") = []
  /\ @parse_generated_comments reference_tables
       ([SPACE; LF] ++ of_string "12. ")
     = [of_string "12."]
  /\ ((@blank reference_tables ([SPACE; LF] ++ of_string "12. ") = true
       /\ @parse_generated_comments reference_tables
            ([SPACE; LF] ++ of_string "12. ") = [apology])
      \/ exists p ds w,
           @blank reference_tables p = true /\ ds <> [] /\
           Forall (fun c => @isdecimal reference_tables c = true) ds /\
           @blank reference_tables w = true /\
           [SPACE; LF] ++ of_string "12. " = p ++ LF :: ds ++ PERIOD :: w /\
           @parse_generated_comments reference_tables
             ([SPACE; LF] ++ of_string "12. ") = [ds ++ [PERIOD]]).
Proof.
  split; [exact reference_tables_ascii|].
  split; [exact reference_digits_not_space|].
  split; [reflexivity|]. split; [reflexivity|].
  exact (fallback_path reference_tables reference_tables_ascii
           reference_digits_not_space
           ([SPACE; LF] ++ of_string "12. ") eq_refl).
Defined.

(** X5.  A text of whitespace only, line breaks included, gives the
    apology: blank pieces and blank lines are discarded, none is returned
    as an empty comment. *)
Theorem blank_text_gives_apology
        (U : Unicode) (HU : ascii_compatible U) (s : str)
        (Hblank : blank s = true) :
  parse_generated_comments s = [apology].
Proof. exact (parse_blank HU s Hblank). Qed.

Lemma blank_text_gives_apology_witness :
  ascii_compatible reference_tables
  /\ @blank reference_tables [SPACE; LF; 9%N; LF; LF; SPACE] = true
  /\ @parse_generated_comments reference_tables
       [SPACE; LF; 9%N; LF; LF; SPACE] = [apology].
Proof.
  split; [exact reference_tables_ascii|]. split; [reflexivity|].
  exact (blank_text_gives_apology reference_tables reference_tables_ascii
           [SPACE; LF; 9%N; LF; LF; SPACE] eq_refl).
Defined.

(** X6.  A text without a line break always gives exactly one comment: the
    apology when the text is blank, otherwise the whole text cleaned. *)
Theorem single_line
        (U : Unicode) (HU : ascii_compatible U) (s : str)
        (Hline : Forall (fun c => c <> LF) s) :
  parse_generated_comments s = if blank s then [apology] else [clean s].
Proof.
  destruct (blank s) eqn:Hb; [exact (parse_blank HU s Hb)|].
  unfold parse_generated_comments, cleaned_comments.
  rewrite (primary_kept HU), re_split_eq, (search_no_LF s Hline).
  cbn [filter]. rewrite Hb. reflexivity.
Qed.

Lemma single_line_witness :
  ascii_compatible reference_tables
  /\ Forall (fun c => c <> LF) (of_string "  2. Well said!  ")
  /\ @parse_generated_comments reference_tables
       (of_string "  2. Well said!  ")
     = [of_string "2. Well said!"].
Proof.
  assert (Hline : Forall (fun c => c <> LF) (of_string "  2. Well said!  "))
    by (repeat constructor; discriminate).
  split; [exact reference_tables_ascii|]. split; [exact Hline|].
  exact (single_line reference_tables reference_tables_ascii
           (of_string "  2. Well said!  ") Hline).
Defined.

(** ** The parser invents no text *)

Section Infix.

Context {U : Unicode}.

Lemma infix_refl (s : str) : infix s s.
Proof. exists [], []. now rewrite app_nil_r. Qed.

Lemma infix_trans (x y z : str) : infix x y -> infix y z -> infix x z.
Proof.
  intros (a & b & ->) (a' & b' & ->).
  exists (a' ++ a), (b ++ b'). now rewrite <- !app_assoc.
Qed.

Lemma infix_prefix (x b : str) : infix x (x ++ b).
Proof. now exists [], b. Qed.

Lemma infix_suffix (a x : str) : infix x (a ++ x).
Proof. exists a, []. now rewrite app_nil_r. Qed.

Lemma infix_firstn (n : nat) (s : str) : infix (firstn n s) s.
Proof.
  rewrite <- (firstn_skipn n s) at 2. apply infix_prefix.
Qed.

Lemma infix_skipn (n : nat) (s : str) : infix (skipn n s) s.
Proof.
  rewrite <- (firstn_skipn n s) at 2. apply infix_suffix.
Qed.

Lemma infix_strip (s : str) : infix (strip s) s.
Proof.
  unfold strip.
  destruct (lstrip_prefix s) as (w & Hw & _).
  destruct (rstrip_suffix (lstrip s)) as (w' & Hw' & _).
  apply infix_trans with (lstrip s).
  - rewrite Hw' at 2. apply infix_prefix.
  - rewrite Hw at 2. apply infix_suffix.
Qed.

Lemma infix_clean (p : str) : infix (clean p) p.
Proof.
  unfold clean. apply infix_trans with (strip p); [|apply infix_strip].
  apply infix_trans with (strip_label (strip p)).
  - unfold strip_quotes.
    destruct ((2 <? length (strip_label (strip p)))%nat
              && startswith (strip_label (strip p)) [DQUOTE]
              && endswith (strip_label (strip p)) [DQUOTE]);
      [|apply infix_refl].
    unfold slice. eapply infix_trans; [apply infix_firstn | apply infix_skipn].
  - unfold strip_label.
    destruct (startswith (strip p) (of_string "1. ")); [|apply infix_refl].
    unfold slice_from. apply infix_skipn.
Qed.

Lemma infix_piece (s p : str) : In p (re_split s) -> infix p s.
Proof.
  remember (length s) as n eqn:Hn. revert s Hn.
  induction n as [n IH] using lt_wf_ind. intros s Hn.
  rewrite re_split_eq.
  destruct (search s) as [[q r]|] eqn:Es.
  - pose proof (search_length _ _ _ Es) as Hl.
    apply search_inv in Es. destruct Es as (u & -> & Hu).
    apply match_label_inv in Hu.
    destruct Hu as (ds & r0 & _ & _ & -> & ->).
    destruct (lstrip_prefix r0) as (w & Hw & _).
    intros [<- | Hin]; [apply infix_prefix|].
    apply infix_trans with (lstrip r0).
    + apply (IH (length (lstrip r0))); [lia | reflexivity | exact Hin].
    + rewrite Hw at 2.
      replace (q ++ LF :: ds ++ PERIOD :: w ++ lstrip r0)
        with ((q ++ LF :: ds ++ PERIOD :: w) ++ lstrip r0)
        by (rewrite <- !app_assoc; cbn [app]; rewrite <- app_assoc;
            reflexivity).
      apply infix_suffix.
  - intros [<- | []]. apply infix_refl.
Qed.

Lemma infix_cons (c : char) (x s : str) : infix x s -> infix x (c :: s).
Proof. intros (a & b & ->). now exists (c :: a), b. Qed.

Lemma infix_line (sep : char) (s l : str) :
  In l (split_on sep s) -> infix l s.
Proof.
  revert l.
  assert (H : (exists l0 ls b, split_on sep s = l0 :: ls /\ s = l0 ++ b)
              /\ forall l, In l (split_on sep s) -> infix l s).
  { induction s as [|c t [(l0 & ls & b & Hsplit & Ht) IH]].
    - split; [now exists [], [], []|].
      intros l [<- | []]. apply infix_refl.
    - cbn [split_on]. destruct (N.eqb c sep).
      + split; [now exists [], (split_on sep t), (c :: t)|].
        intros l [<- | Hin]; [now exists [], (c :: t)|].
        apply infix_cons. now apply IH.
      + rewrite Hsplit. split.
        * exists (c :: l0), ls, b. split; [reflexivity|]. cbn [app].
          now f_equal.
        * intros l [<- | Hin].
          -- rewrite Ht. exact (infix_prefix (c :: l0) b).
          -- apply infix_cons, IH. rewrite Hsplit. now right. }
  exact (proj2 H).
Qed.

End Infix.

(** X7.  The parser invents no text: every returned comment is the apology
    or a run of consecutive characters of the text it was given. *)
Theorem comments_come_from_text (U : Unicode) (s f : str)
        (Hf : In f (parse_generated_comments s)) :
  f = apology \/ infix f s.
Proof.
  unfold parse_generated_comments in Hf.
  destruct (truthy (cleaned_comments s)).
  - right. unfold cleaned_comments in Hf.
    destruct (negb (truthy (primary s)) && truthy s).
    + unfold fallback in Hf. apply in_map_iff in Hf.
      destruct Hf as (l & <- & Hl). apply filter_In in Hl.
      destruct Hl as [Hin _].
      apply infix_trans with l; [apply infix_strip|].
      exact (infix_line LF s l Hin).
    + unfold primary in Hf. apply filter_In in Hf. destruct Hf as [Hf _].
      apply in_map_iff in Hf. destruct Hf as (p & <- & Hin).
      apply infix_trans with p; [apply infix_clean|].
      exact (infix_piece s p Hin).
  - destruct Hf as [<- | []]. now left.
Qed.

Lemma comments_come_from_text_witness :
  In (of_string "Cool")
     (@parse_generated_comments reference_tables
        (of_string "Nice" ++ [LF] ++ of_string "10. Cool"))
  /\ (of_string "Cool" = apology
      \/ infix (of_string "Cool")
               (of_string "Nice" ++ [LF] ++ of_string "10. Cool")).
Proof.
  assert (Hin : In (of_string "Cool")
                   (@parse_generated_comments reference_tables
                      (of_string "Nice" ++ [LF] ++ of_string "10. Cool")))
    by (right; left; reflexivity).
  split; [exact Hin|].
  exact (comments_come_from_text reference_tables _ _ Hin).
Defined.

(** * Further properties of the request handler *)

Lemma parse_not_nil {U : Unicode} (s : str) : parse_generated_comments s <> [].
Proof.
  unfold parse_generated_comments.
  destruct (cleaned_comments s); discriminate.
Qed.

Lemma parse_comments_nonempty {U : Unicode} (s : str) :
  Forall (fun f => f <> []) (parse_generated_comments s).
Proof.
  apply Forall_forall. intros f Hf. unfold parse_generated_comments in Hf.
  destruct (truthy (cleaned_comments s)).
  - unfold cleaned_comments in Hf.
    destruct (negb (truthy (primary s)) && truthy s).
    + unfold fallback in Hf. apply in_map_iff in Hf.
      destruct Hf as (l & <- & Hl). apply filter_In in Hl.
      now apply truthy_nonempty.
    + exact (filter_truthy_nonempty _ _ Hf).
  - destruct Hf as [<- | []]. discriminate.
Qed.

Lemma calls_app (a b : list Event) : calls (a ++ b) = calls a ++ calls b.
Proof. apply flat_map_app. Qed.

(** Unfolds the handler down to the case analyses on the upstream's
    answer. *)
Ltac unfold_handler :=
  unfold generate_comment, startup_then_request, init_client,
    try_except_Exception, call_create, first_content, call_parse,
    bind, emit, raise, ret.

(** X8.  Whenever the handler returns, the response carries the keyword of
    the request unchanged and at least one comment, none of them empty: the
    comments are the parse of the content of the first choice, and the
    upstream was called exactly once and nothing was printed. *)
Theorem response_invariant
        (U : Unicode) (re_split_None : str)
        (client : option Groq) (request : CommentRequest)
        (tr tr' : list Event) (response : CommentResponse)
        (Hreturn : generate_comment re_split_None client request tr
                   = (inr response, tr')) :
  response_keyword response = keyword request
  /\ generated_comments response <> []
  /\ Forall (fun f => f <> []) (generated_comments response)
  /\ tr' = tr ++ [Called (create_args (keyword request))]
  /\ exists c text rest,
       client = Some c
       /\ create c (create_args (keyword request))
          = inr {| choices := Some text :: rest |}
       /\ generated_comments response = parse_generated_comments text.
Proof.
  destruct client as [c|]; [|discriminate Hreturn].
  revert Hreturn. unfold_handler.
  destruct (create c (create_args (keyword request)))
    as [e | [[|[text|] rest]]] eqn:Ec; cbn.
  - destruct (is_Exception e); discriminate.
  - discriminate.
  - intros [= <- <-]. cbn. repeat split.
    + apply parse_not_nil.
    + apply parse_comments_nonempty.
    + now exists c, text, rest.
  - discriminate.
Qed.

Lemma response_invariant_witness :
  @generate_comment reference_tables []
     (Some (canned (inr {| choices := [Some (of_string "1. Nice!")] |})))
     {| keyword := of_string "coffee" |} []
  = (inr {| response_keyword := of_string "coffee";
            generated_comments := [of_string "Nice!"] |},
     [Called (create_args (of_string "coffee"))])
  /\ response_keyword
       {| response_keyword := of_string "coffee";
          generated_comments := [of_string "Nice!"] |}
     = of_string "coffee"
  /\ [of_string "Nice!"] <> [].
Proof.
  pose proof (response_invariant reference_tables []
                (Some (canned (inr {| choices := [Some (of_string "1. Nice!")] |})))
                {| keyword := of_string "coffee" |} []
                [Called (create_args (of_string "coffee"))]
                {| response_keyword := of_string "coffee";
                   generated_comments := [of_string "Nice!"] |}
                eq_refl) as (Hk & Hne & _).
  split; [reflexivity|]. split; [exact Hk | exact Hne].
Defined.

(** X9.  With a client, the handler calls the upstream exactly once, with
    the arguments built from the keyword, whatever the call does and
    whatever comes of its answer: there is no second attempt. *)
Theorem one_upstream_call
        (U : Unicode) (re_split_None : str)
        (client : Groq) (request : CommentRequest) (tr : list Event) :
  calls (snd (generate_comment re_split_None (Some client) request tr))
  = calls tr ++ [create_args (keyword request)].
Proof.
  unfold_handler.
  destruct (create client (create_args (keyword request)))
    as [e | [[|[text|] rest]]]; cbn;
    try destruct (is_Exception e); cbn;
    rewrite ?calls_app; cbn; rewrite ?app_nil_r; reflexivity.
Qed.



(** X11.  A completion without choices is an error like any other: reading
    the first choice raises inside the [try] block, and the handler answers
    500 with the text of the index error after the prefix, having called the
    upstream once and printed one line. *)
Theorem empty_choices
        (U : Unicode) (re_split_None : str)
        (client : Groq) (request : CommentRequest) (tr : list Event)
        (Hanswer : create client (create_args (keyword request))
                   = inr {| choices := [] |}) :
  generate_comment re_split_None (Some client) request tr
  = (inl (HTTPException 500
            (of_string "Error generating comment: list index out of range")),
     tr ++ [Called (create_args (keyword request));
            Printed (of_string "Error calling Groq API: list index out of range")]).
Proof.
  unfold_handler. rewrite Hanswer. cbn. now rewrite <- app_assoc.
Qed.

Lemma empty_choices_witness :
  create (canned (inr {| choices := [] |})) (create_args (of_string "coffee"))
  = inr {| choices := [] |}
  /\ @generate_comment reference_tables []
       (Some (canned (inr {| choices := [] |})))
       {| keyword := of_string "coffee" |} []
     = (inl (HTTPException 500
               (of_string "Error generating comment: list index out of range")),
        [Called (create_args (of_string "coffee"));
         Printed (of_string "Error calling Groq API: list index out of range")]).
Proof.
  split; [reflexivity|].
  exact (empty_choices reference_tables []
           (canned (inr {| choices := [] |}))
           {| keyword := of_string "coffee" |} [] eq_refl).
Defined.

(** X12.  A first choice whose content is [None] never reaches the caller
    as a response: the parser is handed [None], the split raises, and the
    handler answers 500 with the text of that error after the prefix. *)
Theorem none_content
        (U : Unicode) (re_split_None : str)
        (client : Groq) (request : CommentRequest)
        (rest : list (option str)) (tr : list Event)
        (Hanswer : create client (create_args (keyword request))
                   = inr {| choices := None :: rest |}) :
  generate_comment re_split_None (Some client) request tr
  = (inl (HTTPException 500
            (of_string "Error generating comment: " ++ re_split_None)),
     tr ++ [Called (create_args (keyword request));
            Printed (of_string "Error calling Groq API: " ++ re_split_None)]).
Proof.
  unfold_handler. rewrite Hanswer. cbn. now rewrite <- app_assoc.
Qed.

Lemma none_content_witness :
  create (canned (inr {| choices := [None] |})) (create_args (of_string "coffee"))
  = inr {| choices := [None] |}
  /\ @generate_comment reference_tables
       (of_string "expected string or bytes-like object, got 'NoneType'")
       (Some (canned (inr {| choices := [None] |})))
       {| keyword := of_string "coffee" |} []
     = (inl (HTTPException 500
               (of_string "Error generating comment: expected string or bytes-like object, got 'NoneType'")),
        [Called (create_args (of_string "coffee"));
         Printed (of_string "Error calling Groq API: expected string or bytes-like object, got 'NoneType'")]).
Proof.
  split; [reflexivity|].
  exact (none_content reference_tables
           (of_string "expected string or bytes-like object, got 'NoneType'")
           (canned (inr {| choices := [None] |}))
           {| keyword := of_string "coffee" |} [] [] eq_refl).
Defined.

(** X13.  A raised object that is no instance of [Exception] is not caught:
    it leaves the handler as it is, nothing is printed and no HTTP error is
    made of it. *)
Theorem non_exception_propagates
        (U : Unicode) (re_split_None : str)
        (client : Groq) (request : CommentRequest)
        (e : PyError) (tr : list Event)
        (Hraise : create client (create_args (keyword request)) = inl e)
        (Hbase : is_Exception e = false) :
  generate_comment re_split_None (Some client) request tr
  = (inl (Uncaught e), tr ++ [Called (create_args (keyword request))]).
Proof.
  unfold_handler. now rewrite Hraise, Hbase.
Qed.

Lemma non_exception_propagates_witness :
  create (canned (inl interrupt)) (create_args (of_string "coffee"))
  = inl interrupt
  /\ is_Exception interrupt = false
  /\ @generate_comment reference_tables []
       (Some (canned (inl interrupt)))
       {| keyword := of_string "coffee" |} []
     = (inl (Uncaught interrupt), [Called (create_args (of_string "coffee"))]).
Proof.
  split; [reflexivity|]. split; [reflexivity|].
  exact (non_exception_propagates reference_tables []
           (canned (inl interrupt))
           {| keyword := of_string "coffee" |} interrupt [] eq_refl eq_refl).
Defined.

(** * Properties of the start-up *)

Lemma init_client_raises_None
      (Groq_new : option str -> PyError + Groq)
      (environ : str -> option str) (e : PyError) (tr : list Event) :
  Groq_new (environ (of_string "GROQ_API_KEY")) = inl e ->
  is_Exception e = true ->
  init_client Groq_new environ tr
  = (inr None,
     tr ++ key_warnings (environ (of_string "GROQ_API_KEY"))
        ++ [Printed (of_string "Error initializing Groq client: "
                     ++ exc_str e)]).
Proof.
  intros Hraise Herr. unfold_handler. unfold key_warnings.
  cbv zeta. rewrite Hraise.
  destruct (key_missing (environ (of_string "GROQ_API_KEY")));
    cbv beta iota; rewrite Herr; rewrite <- ?app_assoc; reflexivity.
Qed.

(** X14.  When the constructor of the client raises an error, the start-up
    goes on: the error is printed after the fixed prefix, following the two
    warnings if the key was missing, and [client] is left [None]. *)
Theorem init_client_survives
        (Groq_new : option str -> PyError + Groq)
        (environ : str -> option str) (e : PyError) (tr : list Event)
        (Hraise : Groq_new (environ (of_string "GROQ_API_KEY")) = inl e)
        (Herr : is_Exception e = true) :
  init_client Groq_new environ tr
  = (inr None,
     tr ++ key_warnings (environ (of_string "GROQ_API_KEY"))
        ++ [Printed (of_string "Error initializing Groq client: "
                     ++ exc_str e)]).
Proof.
  exact (init_client_raises_None Groq_new environ e tr Hraise Herr).
Qed.

Lemma init_client_survives_witness :
  (fun _ : option str => @inl PyError Groq connection_error)
    ((fun _ : str => @None str) (of_string "GROQ_API_KEY"))
  = inl connection_error
  /\ is_Exception connection_error = true
  /\ init_client (fun _ => inl connection_error) (fun _ => None) []
     = (inr None,
        [Printed key_warning_1; Printed key_warning_2;
         Printed (of_string "Error initializing Groq client: Connection error.")]).
Proof.
  split; [reflexivity|]. split; [reflexivity|].
  exact (init_client_survives (fun _ => inl connection_error)
           (fun _ => None) connection_error [] eq_refl eq_refl).
Defined.

(** X15.  A missing or empty key does not by itself leave the service
    without a client: the two warnings are printed, the constructor is still
    called with what the environment gave, and when it returns a client that
    client is the one the handler will use. *)
Theorem init_client_constructed
        (Groq_new : option str -> PyError + Groq)
        (environ : str -> option str) (client : Groq) (tr : list Event)
        (Hnew : Groq_new (environ (of_string "GROQ_API_KEY")) = inr client) :
  init_client Groq_new environ tr
  = (inr (Some client),
     tr ++ key_warnings (environ (of_string "GROQ_API_KEY"))).
Proof.
  unfold_handler. unfold key_warnings.
  cbv zeta. rewrite Hnew.
  destruct (key_missing (environ (of_string "GROQ_API_KEY")));
    cbv beta iota; rewrite <- ?app_assoc, ?app_nil_r; reflexivity.
Qed.

Lemma init_client_constructed_witness :
  (fun _ : option str => @inr PyError Groq (canned (inl connection_error)))
    ((fun _ : str => Some (@nil char)) (of_string "GROQ_API_KEY"))
  = inr (canned (inl connection_error))
  /\ init_client (fun _ => inr (canned (inl connection_error)))
       (fun _ => Some []) []
     = (inr (Some (canned (inl connection_error))),
        [Printed key_warning_1; Printed key_warning_2]).
Proof.
  split; [reflexivity|].
  exact (init_client_constructed
           (fun _ => inr (canned (inl connection_error)))
           (fun _ => Some []) (canned (inl connection_error)) []
           eq_refl).
Defined.

(** X16.  A failed construction at start-up shows at the first request and
    at no cost upstream: the request is answered 500 with the configuration
    message and no upstream call is made, before or after. *)
Theorem startup_failure_then_request
        (U : Unicode) (re_split_None : str)
        (Groq_new : option str -> PyError + Groq)
        (environ : str -> option str) (request : CommentRequest)
        (e : PyError) (tr : list Event)
        (Hraise : Groq_new (environ (of_string "GROQ_API_KEY")) = inl e)
        (Herr : is_Exception e = true) :
  fst (startup_then_request Groq_new re_split_None environ request tr)
  = inl (HTTPException 500 not_initialized)
  /\ calls (snd (startup_then_request Groq_new re_split_None environ
                   request tr))
     = calls tr.
Proof.
  unfold startup_then_request, bind.
  rewrite (init_client_raises_None Groq_new environ e tr Hraise Herr).
  cbv beta iota. unfold generate_comment, raise. cbn [fst snd].
  split; [reflexivity|].
  rewrite !calls_app. unfold key_warnings.
  destruct (key_missing (environ (of_string "GROQ_API_KEY")));
    cbn [calls flat_map app]; now rewrite app_nil_r.
Qed.

Lemma startup_failure_then_request_witness :
  (fun _ : option str => @inl PyError Groq connection_error)
    ((fun _ : str => @None str) (of_string "GROQ_API_KEY"))
  = inl connection_error
  /\ is_Exception connection_error = true
  /\ fst (@startup_then_request (fun _ => inl connection_error)
            reference_tables [] (fun _ => None)
            {| keyword := of_string "coffee" |} [])
     = inl (HTTPException 500 not_initialized).
Proof.
  split; [reflexivity|]. split; [reflexivity|].
  exact (proj1 (startup_failure_then_request reference_tables []
                  (fun _ => inl connection_error) (fun _ => None)
                  {| keyword := of_string "coffee" |} connection_error []
                  eq_refl eq_refl)).
Defined.

(** * The prompt *)

(** X17.  The keyword reaches the upstream as it came: it is put between
    the fixed parts of the user prompt without any change, so the arguments
    of the upstream call determine the keyword, and two requests with
    different keywords never make the same call. *)
Theorem create_args_injective (k1 k2 : str)
        (Hsame : create_args k1 = create_args k2) :
  k1 = k2.
Proof.
  unfold create_args in Hsame.
  injection Hsame as Hprompt. unfold user_prompt in Hprompt.
  repeat apply app_inv_head in Hprompt.
  now apply app_inv_tail in Hprompt.
Qed.

Lemma create_args_injective_witness :
  create_args (of_string "tea") = create_args (of_string "tea")
  /\ of_string "tea" = of_string "tea".
Proof.
  split; [reflexivity|].
  exact (create_args_injective (of_string "tea") (of_string "tea") eq_refl).
Defined.
